(** * Burrows-Wheeler transform by rank doubling, and its inversion

    A shallow embedding of [conversion_functions.py]: the suffix-array
    builder ([calculate_ranks], [build_suffix_array]), the encoder
    ([burrows_wheeler_conversion]), the last-to-first mapper
    ([map_last_to_first]) and the decoder ([revert_burrows_wheeler]),
    followed by the properties the specification states about them.
    [server.py] and [client.py] are embedded as far as they decide what is
    converted and answered ([handle_request], [validation_client],
    [validation_server]); further properties of the code close the file.

    Python strings are sequences of characters ([seq ascii]); numpy integer
    arrays are [seq nat] (every index the code stores is non-negative); the
    one signed computation, [(i - 1) % len(seq)], is carried out in [Z].
    A numpy array of one-character strings gives a NUL character back as the
    empty string: it compares and sorts as code point 0, and leaves nothing
    in a string joined from the array ([join_chars]).

    Arrays are read with [nth] and a default. The program never reads
    outside an array: the suffix array is a permutation of the positions
    after every round ([perm_rounds]), sorted indices are positions
    ([argsort_lt]), the circular predecessor is a position ([py_mod_pred],
    [predc_lt]), every key looked up in [first] is present
    ([first_occurrence_defined]) and the walk of the decoder stays in range
    ([map_last_to_first_lt], [walk_in_range]). The [while] loop runs on
    fuel; it always leaves through its own exits ([doubling_loop_fuel]). *)

From HB Require Import structures.
From Stdlib Require Import Ascii String ZArith Lia.
From mathcomp Require Import ssreflect ssrfun ssrbool eqtype ssrnat seq path div.

Set Implicit Arguments.
Unset Strict Implicit.
Unset Printing Implicit Defensive.

(** ** Characters and strings *)

(** Code point of a character: numpy orders one-character strings by it. *)
Definition code (c : ascii) : nat := nat_of_ascii c.

Lemma codeK : cancel code ascii_of_nat.
Proof. exact: ascii_nat_embedding. Qed.

HB.instance Definition _ := Equality.copy ascii (can_type codeK).

Definition str := seq ascii.

(** A string literal as a sequence of characters. *)
Definition py (s : string) : str := list_ascii_of_string s.

Definition sentinel : ascii := "$"%char.
Definition nul : ascii := "000"%char.

(** The IUPAC nucleotide codes the client accepts. *)
Definition alphabet : str := py "ACGTRYSWKMBDHVN".
Definition over_alphabet (s : str) : bool := all (fun c => c \in alphabet) s.

(** Order of characters, and of the (rank1, rank2) records compared field by
    field in the order ['rank1', 'rank2']. *)
Definition le_char : rel ascii := fun a b => code a <= code b.

Definition le_pair : rel (nat * nat) :=
  fun a b => (a.1 < b.1) || ((a.1 == b.1) && (a.2 <= b.2)).

(** ** numpy primitives *)

(** [np.argsort(a, kind='mergesort')]: the positions of [a] in ascending
    order of their entries, equal entries keeping their relative order. *)
Definition argsort (K : Type) (le : rel K) (d : K) (a : seq K) : seq nat :=
  sort (relpre (nth d a) le) (iota 0 (size a)).

(** What [kind='mergesort'] promises of an argsort [f], whatever algorithm
    runs behind it: the result lists every position once, in ascending order
    of the entries, positions of equal entries ascending. *)
Definition stable_lt (K : Type) (le : rel K) (d : K) (a : seq K) : rel nat :=
  [rel p q | le (nth d a p) (nth d a q)
             && (le (nth d a q) (nth d a p) ==> (p < q))].

Definition stable_argsort (K : Type) (le : rel K) (d : K)
    (f : seq K -> seq nat) : Prop :=
  forall a, perm_eq (f a) (iota 0 (size a)) /\ sorted (stable_lt le d a) (f a).

(** What [np.sort] promises on characters: a sorted rearrangement. *)
Definition sorts_chars (f : str -> str) : Prop :=
  forall a, perm_eq (f a) a /\ sorted le_char (f a).

(** An argsort that breaks ties by comparing positions, on the positions
    taken in descending order. *)
Definition argsort_by_index (K : Type) (le : rel K) (d : K) (a : seq K)
  : seq nat :=
  sort [rel p q | le (nth d a p) (nth d a q)
                  && (le (nth d a q) (nth d a p) ==> (p <= q))]
       (rev (iota 0 (size a))).

(** A sort of characters that starts from the reversed array. *)
Definition sort_reversed (a : str) : str := sort le_char (rev a).

(** [a[ix]] for an index array [ix]. *)
Definition gather (A : Type) (d : A) (a : seq A) (ix : seq nat) : seq A :=
  [seq nth d a i | i <- ix].

(** [np.where(a == c)[0]]: the positions holding [c], ascending. *)
Definition where_eq (c : ascii) (a : str) : seq nat :=
  [seq i <- iota 0 (size a) | nth nul a i == c].

(** [''.join(...)] over elements read from an array of one-character
    strings: a NUL character is read back as the empty string and leaves
    nothing in the result. *)
Definition join_chars (cs : str) : str := [seq c <- cs | c != nul].

(** [enumerate(a)]. *)
Definition enumerate (A : Type) (a : seq A) : seq (nat * A) :=
  zip (iota 0 (size a)) a.

(** Python's [a % b] on integers (the result has the sign of [b]). *)
Definition py_mod (a b : Z) : Z := Z.modulo a b.

(** ** Outcomes *)

(** [IndexError] is what indexing an empty array raises; the other three
    are the typed errors the specification names. *)
Inductive exn : Type :=
  | IndexError
  | SentinelAlreadyPresent
  | SentinelCountError
  | EmptyInputError.

Inductive outcome (A : Type) : Type :=
  | Returns (a : A)
  | Raises (e : exn).
Arguments Raises {A} e.

Definition bind (A B : Type) (x : outcome A) (f : A -> outcome B) : outcome B :=
  match x with
  | Returns a => f a
  | Raises e => Raises e
  end.

(** ** The program

    numpy's sorting routines are taken as parameters: [argsort_char] is
    [np.argsort(seq_array, kind='mergesort')] on characters, [argsort_pair]
    is [np.argsort(suffix_ranks, order=['rank1', 'rank2'], kind='mergesort')]
    on rank records, and [sort_char] is [np.sort(bwt_array)]. The functions
    named as in the source are their instances at the stable merge sort
    (below); [stable_argsort] and [sorts_chars] state what numpy promises of
    the routines. *)

(** The record [(ranks[i], ranks[(i + k) % len])]. *)
Definition rank_pair (ranks : seq nat) (k len i : nat) : nat * nat :=
  (nth 0 ranks i, nth 0 ranks ((i + k) %% len)).

(** State of the [while] loop: [k], [suffix_array], [ranks]. *)
Record loop_state : Type :=
  LoopState { st_k : nat; st_sa : seq nat; st_ranks : seq nat }.

(** Ranks by first character: the [for] loop that precedes the doubling. *)
Definition initial_ranks (s : str) (suffix_array : seq nat) : seq nat :=
  foldl (fun ranks i =>
           let cur := nth 0 suffix_array i in
           let prev := nth 0 suffix_array (i - 1) in
           if nth nul s cur != nth nul s prev
           then set_nth 0 ranks cur (nth 0 ranks prev + 1)
           else set_nth 0 ranks cur (nth 0 ranks prev))
        (nseq (size s) 0) (iota 1 (size s - 1)).

(** The dictionary [first]: a partial map on characters. *)
Definition dict := ascii -> option nat.
Definition dict_empty : dict := fun _ => None.
Definition dict_set (d : dict) (c : ascii) (v : nat) : dict :=
  fun x => if x == c then Some v else d x.
(** [d[c]] (the key is present at every lookup the code performs, see
    [first_occurrence_defined]). *)
Definition dict_get (d : dict) (c : ascii) : nat := odflt 0 (d c).

(** The [defaultdict(int)] [char_counts]: absent keys read as 0. *)
Definition counter := ascii -> nat.
Definition counter_empty : counter := fun _ => 0.
Definition counter_set (d : counter) (c : ascii) (v : nat) : counter :=
  fun x => if x == c then v else d x.

Definition first_occurrence (first_col : str) : dict :=
  foldl (fun first ic =>
           if first ic.2 is Some _ then first else dict_set first ic.2 ic.1)
        dict_empty (enumerate first_col).

(** One iteration of the reconstruction loop on [(idx, original_seq)]. *)
Definition walk_step (bwt : str) (last_to_first : seq nat)
    (st : nat * str) : nat * str :=
  (nth 0 last_to_first st.1, nth nul bwt st.1 :: st.2).

Section Numpy.

Variable argsort_char : str -> seq nat.
Variable argsort_pair : seq (nat * nat) -> seq nat.
Variable sort_char : str -> str.

(** *** Suffix array construction *)

Definition calculate_ranks_with (suffix_array : seq nat) (k : nat)
    (ranks : seq nat) : seq nat :=
  let suffix_ranks :=
    [seq rank_pair ranks k (size ranks) i | i <- suffix_array] in
  let sorted_indices := argsort_pair suffix_ranks in
  let next_ranks := nseq (size ranks) 0 in
  foldl (fun next_ranks i =>
           let cur := nth 0 suffix_array (nth 0 sorted_indices i) in
           let prev := nth 0 suffix_array (nth 0 sorted_indices (i - 1)) in
           if nth (0, 0) suffix_ranks (nth 0 sorted_indices i)
                != nth (0, 0) suffix_ranks (nth 0 sorted_indices (i - 1))
           then set_nth 0 next_ranks cur (nth 0 next_ranks prev + 1)
           else set_nth 0 next_ranks cur (nth 0 next_ranks prev))
        next_ranks (iota 1 (size ranks - 1)).

(** One pass through the body of the [while] loop, up to [k *= 2]; [n] is
    [len(seq)]. *)
Definition doubling_round_with (n : nat) (st : loop_state) : loop_state :=
  let k := st_k st in
  let ranks := st_ranks st in
  let suffix_ranks := [seq rank_pair ranks k n i | i <- st_sa st] in
  let sorted_indices := argsort_pair suffix_ranks in
  let suffix_array := gather 0 (st_sa st) sorted_indices in
  let ranks := calculate_ranks_with suffix_array k ranks in
  LoopState (k * 2) suffix_array ranks.

(** The [while k < len(seq)] loop with its early [break]. The loop leaves
    through its own exits when the fuel is at least [n] (see
    [doubling_loop_fuel]). *)
Fixpoint doubling_loop_with (fuel n : nat) (st : loop_state) : seq nat :=
  if fuel is fuel'.+1 then
    if st_k st < n then
      let st' := doubling_round_with n st in
      if nth 0 (st_ranks st') (last 0 (st_sa st')) == n - 1
      then st_sa st'
      else doubling_loop_with fuel' n st'
    else st_sa st
  else st_sa st.

Definition initial_state_with (s : str) : loop_state :=
  let suffix_array := argsort_char s in
  LoopState 1 suffix_array (initial_ranks s suffix_array).

Definition build_suffix_array_with (s : str) : seq nat :=
  doubling_loop_with (size s) (size s) (initial_state_with s).

(** *** Encoding *)

Definition burrows_wheeler_conversion_with (s : str) : outcome str :=
  let s := s ++ [:: sentinel] in
  let suffix_array := build_suffix_array_with s in
  let len := Z.of_nat (size s) in
  Returns (join_chars [seq nth nul s (Z.to_nat (py_mod (Z.of_nat i - 1) len))
                      | i <- suffix_array]).

(** *** Decoding *)

Definition map_last_to_first_with (bwt : str) : seq nat :=
  let first_col := sort_char bwt in
  let last_to_first := nseq (size bwt) 0 in
  let first := first_occurrence first_col in
  (foldl (fun acc ic =>
            let: (last_to_first, char_counts) := acc in
            let first_col_index := dict_get first ic.2 + char_counts ic.2 in
            (set_nth 0 last_to_first ic.1 first_col_index,
             counter_set char_counts ic.2 (char_counts ic.2 + 1)))
         (last_to_first, counter_empty) (enumerate bwt)).1.

Definition revert_burrows_wheeler_with (bwt : str) : outcome str :=
  let last_to_first := map_last_to_first_with bwt in
  if where_eq sentinel bwt is idx :: _ then
    let original_seq :=
      (iter (size bwt) (walk_step bwt last_to_first) (idx, [::])).2 in
    let joined := join_chars original_seq in
    Returns (take (size joined - 1) joined)
  else Raises IndexError.

End Numpy.

(** *** The program at numpy's merge sort *)

Definition calculate_ranks : seq nat -> nat -> seq nat -> seq nat :=
  calculate_ranks_with (argsort le_pair (0, 0)).

Definition doubling_round : nat -> loop_state -> loop_state :=
  doubling_round_with (argsort le_pair (0, 0)).

Definition doubling_loop : nat -> nat -> loop_state -> seq nat :=
  doubling_loop_with (argsort le_pair (0, 0)).

Definition initial_state : str -> loop_state :=
  initial_state_with (argsort le_char nul).

Definition build_suffix_array : str -> seq nat :=
  build_suffix_array_with (argsort le_char nul) (argsort le_pair (0, 0)).

Definition burrows_wheeler_conversion : str -> outcome str :=
  burrows_wheeler_conversion_with (argsort le_char nul)
                                  (argsort le_pair (0, 0)).

Definition map_last_to_first : str -> seq nat :=
  map_last_to_first_with (sort le_char).

Definition revert_burrows_wheeler : str -> outcome str :=
  revert_burrows_wheeler_with (sort le_char).

(** ** The server and the client

    [server.py] and [client.py], as far as they decide what is converted and
    what is answered. A connection delivers a list of chunks, one per
    [recv]; host resolution, the processor count and the input file are
    parameters. Bytes are characters, and the text functions below are the
    Python ones on 7-bit characters, where [decode] and [encode] change
    nothing: the properties proved of them are stated for 7-bit data. *)

Definition newline : ascii := "010"%char.

Definition seven_bit (s : str) : bool := all (fun c => code c < 128) s.

(** [c.isspace()]. *)
Definition isspace (c : ascii) : bool :=
  code c \in [:: 9; 10; 11; 12; 13; 28; 29; 30; 31; 32].

(** [s.lstrip()], [s.rstrip()] and [s.strip()]. *)
Fixpoint lstrip (s : str) : str :=
  if s is c :: s' then if isspace c then lstrip s' else s else [::].

Definition rstrip (s : str) : str := rev (lstrip (rev s)).

Definition strip (s : str) : str := rstrip (lstrip s).

(** [s.upper()]. *)
Definition upper_char (c : ascii) : ascii :=
  if (97 <= code c) && (code c <= 122) then ascii_of_nat (code c - 32) else c.

Definition upper (s : str) : str := [seq upper_char c | c <- s].

(** [s.replace("\n", "")]. *)
Definition remove_newlines (s : str) : str := [seq c <- s | c != newline].

(** [f.readline()] on a file just opened, and the [f.read()] after it. *)
Definition readline (text : str) : str := take (index newline text).+1 text.

Definition read_rest (text : str) : str := drop (index newline text).+1 text.

(** [s.split(sep)] for a non-empty [sep]: [skip] characters of a separator
    just found are still to be passed, [cur] is the piece being read,
    reversed. *)
Fixpoint split_from (sep : str) (skip : nat) (cur : str) (s : str)
  : seq str :=
  match s with
  | [::] => [:: rev cur]
  | c :: s' =>
      if skip is skip'.+1 then split_from sep skip' cur s'
      else if prefix sep s then rev cur :: split_from sep (size sep).-1 [::] s'
      else split_from sep 0 (c :: cur) s'
  end.

Definition split (sep s : str) : seq str := split_from sep 0 [::] s.

(** *** Receiving up to the delimiter

    The loop [while True: data = recv(1024) ...] of [handle_request] and of
    the client's [main], with [end = b"\n"]. [None]: the delimiter is in
    none of the chunks, and the loop is still reading. *)
Fixpoint receive (chunks : seq str) (raw : str) : option str :=
  match chunks with
  | [::] => None
  | data :: chunks' =>
      if newline \in data then Some (raw ++ take (index newline data) data)
      else receive chunks' (raw ++ data)
  end.

(** *** [handle_request]

    From the chunks the connection delivers to what is passed to
    [sendall]. [raw_seq_info.decode()] leaves 7-bit bytes as they are, and
    so does [encode] on the way back. *)

(** What the server's [except Exception] logs in place of an answer: the
    [ValueError] of unpacking [split]'s result into two names, or an
    exception of the conversion. *)
Inductive request_error : Type :=
  | UnpackError
  | ConversionError (e : exn).

Inductive reply : Type :=
  | Sent (response : str)
  | Logged (e : request_error)
  | Reading.

Definition handle_request (chunks : seq str) : reply :=
  if receive chunks [::] is Some raw_seq_info then
    let seq_info := raw_seq_info in
    if split (py ": ") seq_info is [:: operation; seq_to_convert] then
      let result :=
        if operation == py "BWT"
        then burrows_wheeler_conversion seq_to_convert
        else revert_burrows_wheeler seq_to_convert in
      match result with
      | Returns result => Sent (result ++ [:: newline])
      | Raises e => Logged (ConversionError e)
      end
    else Logged UnpackError
  else Reading.

(** *** Validation of the command line *)

(** [socket.gethostbyname(host)] returns, raises [socket.gaierror], raises
    a [ValueError] (a host name that cannot be encoded), or raises another
    exception, such as the [TypeError] for a host name that holds a NUL
    character. *)
Inductive resolution : Type :=
  | Resolved
  | GaiError
  | HostValueError
  | HostOtherError.

(** [open(file, "r")] followed by the reads: the text as the file object
    delivers it, [FileNotFoundError], the [ValueError] of a content that
    cannot be decoded, or another [OSError] ([IsADirectoryError],
    [PermissionError], ...). *)
Inductive file_read : Type :=
  | Text (text : str)
  | FileNotFound
  | Undecodable
  | OtherOSError.

(** The exceptions the validation functions do not catch: the one of the
    host lookup, the one of the file. *)
Inductive uncaught : Type := HostException | FileException.

(** A validation function returns its values, leaves through
    [sys.exit(code)], or lets an exception through to its caller. *)
Inductive validated (A : Type) : Type :=
  | Accepted (a : A)
  | Exit (code : nat)
  | Propagates (e : uncaught).
Arguments Exit {A} code.
Arguments Propagates {A} e.

Definition valid_port (port : Z) : bool :=
  (1 <=? port)%Z && (port <=? 65535)%Z.

Definition bases : str := py "ACGTRYSWKMBDHVN$".

Section Environment.

Variable gethostbyname : str -> resolution.
Variable open_read : str -> file_read.
Variable cpu_count : Z.

Definition validation_client (host : str) (port : Z) (file operation : str)
  : validated (str * Z * str * str) :=
  if ~~ valid_port port then Exit 3
  else match gethostbyname host with
  | HostValueError => Exit 3
  | GaiError => Exit 4
  | HostOtherError => Propagates HostException
  | Resolved =>
      if ~~ (suffix (py ".txt") file || suffix (py ".fasta") file) then Exit 3
      else match open_read file with
      | FileNotFound => Exit 2
      | Undecodable => Exit 3
      | OtherOSError => Propagates FileException
      | Text text =>
          let header := strip (readline text) in
          let seq := upper (strip (read_rest text)) in
          let seq := remove_newlines seq in
          if ~~ prefix (py ">") header then Exit 3
          else if nilp seq then Exit 3
          else if (operation == py "BWT") && (0 < count_mem sentinel seq)
          then Exit 3
          else if (operation == py "REVERT") && (count_mem sentinel seq != 1)
          then Exit 3
          else if ~~ all (fun base => base \in bases) seq then Exit 3
          else Accepted (host, port, header, seq)
      end
  end.

Definition validation_server (host : str) (port n_processes : Z)
  : validated (str * Z * Z) :=
  if ~~ valid_port port then Exit 3
  else match gethostbyname host with
  | HostValueError => Exit 3
  | GaiError => Exit 4
  | HostOtherError => Propagates HostException
  | Resolved =>
      if (n_processes <? 1)%Z || (cpu_count * 2 <? n_processes)%Z then Exit 3
      else Accepted (host, port, n_processes)
  end.

(** The default of [--processes] in [starting]. *)
Definition default_processes : Z := Z.max 1 (cpu_count - 1).

End Environment.

(** *** What the client sends and writes *)

(** [f"{args.operation}: {seq}\n"]. *)
Definition request (operation seq : str) : str :=
  operation ++ py ": " ++ seq ++ [:: newline].

(** The text written to the output file. *)
Definition output_text (header operation seq : str) : str :=
  header ++ [:: newline] ++ py "Operation performed: " ++ operation
  ++ [:: newline; newline] ++ py "Output sequence: " ++ seq.

(** ** Notions used to state and prove the properties *)

(** Python's order on strings: lexicographic by code point, a proper prefix
    being smaller. *)
Fixpoint lex_le (a b : str) : bool :=
  match a, b with
  | [::], _ => true
  | _ :: _, [::] => false
  | x :: a', y :: b' => (code x < code y) || ((x == y) && lex_le a' b')
  end.

(** Order of positions by the suffixes that start there. *)
Definition suffix_le (s : str) : rel nat :=
  fun i j => lex_le (drop i s) (drop j s).

(** Strict order of positions by suffix. *)
Definition suffix_lt (s : str) : rel nat :=
  fun p q => suffix_le s p q && (p != q).

(** Full lexicographic comparison of suffixes, ties broken by start offset. *)
Definition reference_le (s : str) : rel nat :=
  fun i j => if drop i s == drop j s then i <= j
             else lex_le (drop i s) (drop j s).

(** The reference suffix array: all start offsets, sorted by [reference_le]. *)
Definition reference_suffix_array (s : str) : seq nat :=
  sort (reference_le s) (iota 0 (size s)).

(** Position before [i] on a circle of [m] positions. *)
Definition predc (m i : nat) : nat := if i is i'.+1 then i' else m.-1.

(** The rank assignment loop, shared by the two [for] loops of the builder:
    positions [pos 0, pos 1, ...] are visited in order and a new rank starts
    whenever the key changes. *)
Definition rank_fold (K : eqType) (key : nat -> K) (pos : nat -> nat)
    (n : nat) : seq nat :=
  foldl (fun r i =>
           if key i != key (i - 1)
           then set_nth 0 r (pos i) (nth 0 r (pos (i - 1)) + 1)
           else set_nth 0 r (pos i) (nth 0 r (pos (i - 1))))
        (nseq n 0) (iota 1 (n - 1)).

(** Number of key changes met up to position [p]. *)
Definition dense (K : eqType) (key : nat -> K) (p : nat) : nat :=
  count (fun i => key i != key i.-1) (iota 1 p).

(** The character [i] places along the circular string [s]. *)
Definition cy (s : str) (i : nat) : ascii := nth nul s (i %% size s).

(** The [k] characters read circularly from position [i]. *)
Definition pref (s : str) (k i : nat) : str :=
  [seq cy s (i + e) | e <- iota 0 k].

(** Order by [k]-prefix, ties broken by position. *)
Definition lt_pref (s : str) (k : nat) : rel nat :=
  fun i j => lex_le (pref s k i) (pref s k j)
             && (lex_le (pref s k j) (pref s k i) ==> (i < j)).

(** What holds of the loop state each time the loop condition is tested:
    the suffix array lists every position once, ordered by [k]-prefix with
    ties in position order, and ranks compare as [k]-prefixes do. *)
Definition round_inv (s : str) (st : loop_state) : Prop :=
  [/\ perm_eq (st_sa st) (iota 0 (size s)),
      sorted (lt_pref s (st_k st)) (st_sa st),
      size (st_ranks st) = size s
    & forall i j, i < size s -> j < size s ->
        (nth 0 (st_ranks st) i <= nth 0 (st_ranks st) j)
        = lex_le (pref s (st_k st) i) (pref s (st_k st) j)].

(** The rotations of [s], by start position. *)
Definition rotations (s : str) : seq str :=
  [seq rot i s | i <- iota 0 (size s)].

(** The [while k < len(seq)] loop with the early [break] taken out. *)
Fixpoint doubling_loop_no_break (fuel n : nat) (st : loop_state) : seq nat :=
  if fuel is fuel'.+1 then
    if st_k st < n then doubling_loop_no_break fuel' n (doubling_round n st)
    else st_sa st
  else st_sa st.

(** The same loop as [doubling_loop], counting the passes through its
    body: the count at the exit, and the array returned. *)
Fixpoint doubling_loop_counted (fuel n : nat) (st : loop_state)
    (passes : nat) : nat * seq nat :=
  if fuel is fuel'.+1 then
    if st_k st < n then
      let st' := doubling_round n st in
      if nth 0 (st_ranks st') (last 0 (st_sa st')) == n - 1
      then (passes.+1, st_sa st')
      else doubling_loop_counted fuel' n st' passes.+1
    else (passes, st_sa st)
  else (passes, st_sa st).

(** The character that opens the separator of a request. *)
Definition colon : ascii := ":"%char.

(** An environment for concrete runs: every host resolves, and every file
    holds a header and the sequence "acgt", "ACGN" on two lines. *)
Definition sample_hosts : str -> resolution := fun _ => Resolved.

Definition sample_text : str :=
  py ">seq1 sample" ++ newline :: py "acgt" ++ newline :: py "ACGN"
  ++ [:: newline].

Definition sample_files : str -> file_read := fun _ => Text sample_text.

(** The same with the transform of "ACGTACGN" in the file. *)
Definition sample_transform_files : str -> file_read :=
  fun _ => Text (py ">seq1 sample" ++ newline :: py "NT$AACCGG").

(** White space is made of newlines only. *)
Definition only_newlines (x : str) : bool :=
  all (fun c => isspace c ==> (c == newline)) x.

(** * Proofs *)

(** ** Unfolding the program at the merge sort *)

Lemma doubling_roundE n st :
  doubling_round n st
  = let k := st_k st in
    let ranks := st_ranks st in
    let suffix_ranks := [seq rank_pair ranks k n i | i <- st_sa st] in
    let sorted_indices := argsort le_pair (0, 0) suffix_ranks in
    let suffix_array := gather 0 (st_sa st) sorted_indices in
    LoopState (k * 2) suffix_array (calculate_ranks suffix_array k ranks).
Proof. by []. Qed.

Lemma build_suffix_arrayE s :
  build_suffix_array s = doubling_loop (size s) (size s) (initial_state s).
Proof. by []. Qed.

Lemma burrows_wheeler_conversion_unfold s :
  burrows_wheeler_conversion s
  = let s := s ++ [:: sentinel] in
    Returns (join_chars
               [seq nth nul s (Z.to_nat (py_mod (Z.of_nat i - 1)
                                                (Z.of_nat (size s))))
               | i <- build_suffix_array s]).
Proof. by []. Qed.

Lemma map_last_to_firstE bwt :
  map_last_to_first bwt
  = let first := first_occurrence (sort le_char bwt) in
    (foldl (fun acc ic =>
              let: (last_to_first, char_counts) := acc in
              let first_col_index := dict_get first ic.2 + char_counts ic.2 in
              (set_nth 0 last_to_first ic.1 first_col_index,
               counter_set char_counts ic.2 (char_counts ic.2 + 1)))
           (nseq (size bwt) 0, counter_empty) (enumerate bwt)).1.
Proof. by []. Qed.

Lemma revert_burrows_wheelerE bwt :
  revert_burrows_wheeler bwt
  = if where_eq sentinel bwt is idx :: _ then
      let original_seq :=
        (iter (size bwt) (walk_step bwt (map_last_to_first bwt))
              (idx, [::])).2 in
      let joined := join_chars original_seq in
      Returns (take (size joined - 1) joined)
    else Raises IndexError.
Proof. by []. Qed.

(** ** Concrete runs *)

Example bwt_acgt :
  burrows_wheeler_conversion (py "ACGTACGTACGTACGTACGT")
  = Returns (py "TTTTT$AAAAACCCCCGGGGG").
Proof. by vm_compute. Qed.

Example revert_acgt :
  revert_burrows_wheeler (py "TTTTT$AAAAACCCCCGGGGG")
  = Returns (py "ACGTACGTACGTACGTACGT").
Proof. by vm_compute. Qed.

(** A NUL character is lost in the join. *)
Example bwt_nul :
  burrows_wheeler_conversion [:: "A"%char; nul] = Returns (py "A$").
Proof. by vm_compute. Qed.

Example revert_nul :
  revert_burrows_wheeler [:: "A"%char; nul; sentinel; sentinel]
  = Returns (py "$A").
Proof. by vm_compute. Qed.

(** ** The rank assignment loop

    Both [for] loops that assign ranks walk a sequence of positions in sorted
    order and start a new rank whenever the key changes. *)

Lemma iota_last m n : iota m n.+1 = iota m n ++ [:: m + n].
Proof. by rewrite -addn1 iotaD. Qed.

Section RankFold.

Variables (K : eqType) (key : nat -> K) (pos : nat -> nat) (n : nat).

Local Notation rank_fold := (rank_fold key pos n).
Local Notation dense := (dense key).

Lemma denseS p : dense p.+1 = dense p + (key p.+1 != key p).
Proof. by rewrite /dense iota_last count_cat /= addn0 add1n. Qed.

Lemma dense_le p q : p <= q -> dense p <= dense q.
Proof.
move=> /subnKC <-; elim: (q - p) => [|d IH]; first by rewrite addn0.
by rewrite addnS denseS (leq_trans IH) // leq_addr.
Qed.

Lemma dense_ub p : dense p <= p.
Proof. by rewrite -{2}(size_iota 1 p); exact: count_size. Qed.

Lemma dense_gap p q : p <= q -> dense q + p <= dense p + q.
Proof.
move=> /subnKC <-; elim: (q - p) => [|d IH]; first by rewrite addn0.
rewrite addnS denseS addnS -addnA [_ + p]addnC addnA.
by case: (_ != _); rewrite ?addn0 ?addn1 ?ltnS // (leq_trans IH).
Qed.

Lemma dense_full m p : dense m = m -> p <= m -> dense p = p.
Proof.
move=> dm pm; apply/eqP; rewrite eqn_leq dense_ub /=.
by have := dense_gap pm; rewrite dm addnC leq_add2r.
Qed.

Hypothesis pos_inj : {in gtn n &, injective pos}.
Hypothesis pos_lt : forall p, p < n -> pos p < n.

Lemma rank_fold_prefix m :
  m < n ->
  let r := foldl (fun r i =>
                    if key i != key (i - 1)
                    then set_nth 0 r (pos i) (nth 0 r (pos (i - 1)) + 1)
                    else set_nth 0 r (pos i) (nth 0 r (pos (i - 1))))
                 (nseq n 0) (iota 1 m) in
  size r = n /\ forall p, p <= m -> nth 0 r (pos p) = dense p.
Proof.
elim: m => [|m IH] mn.
  by rewrite /= size_nseq; split=> // p; rewrite leqn0 => /eqP ->; rewrite nth_nseq if_same.
have [sz Hr] := IH (ltnW mn).
rewrite iota_last foldl_cat /= add1n subn1 /=.
set r := foldl _ _ _ in sz Hr *.
have -> : (if key m.+1 != key m
           then set_nth 0 r (pos m.+1) (nth 0 r (pos m) + 1)
           else set_nth 0 r (pos m.+1) (nth 0 r (pos m)))
          = set_nth 0 r (pos m.+1) (dense m.+1).
  by rewrite denseS Hr //; case: (_ != _); rewrite ?addn0.
split.
  rewrite size_set_nth sz; apply/maxn_idPr; exact: pos_lt.
move=> p; rewrite leq_eqVlt ltnS => /orP[/eqP ->|pm].
  by rewrite nth_set_nth /= eqxx.
rewrite nth_set_nth /=; case: eqP => [/pos_inj e|_]; last exact: Hr.
have pn : p < n by apply: leq_ltn_trans pm (ltnW mn).
by move: pm; rewrite e ?ltnn.
Qed.

Lemma size_rank_fold : size rank_fold = n.
Proof.
rewrite /rank_fold; have [n0|npos] := posnP n; first by rewrite n0.
by have [] := @rank_fold_prefix n.-1; rewrite ?subn1 // prednK.
Qed.

Lemma nth_rank_fold p : p < n -> nth 0 rank_fold (pos p) = dense p.
Proof.
move=> pn; have npos : 0 < n by exact: leq_ltn_trans pn.
have [|_] := @rank_fold_prefix n.-1; first by rewrite prednK.
by rewrite /rank_fold subn1; apply; rewrite -ltnS prednK.
Qed.

Variable le : rel K.
Hypothesis le_refl : reflexive le.
Hypothesis le_anti : antisymmetric le.
Hypothesis key_sorted : forall p q, p <= q -> q < n -> le (key p) (key q).

Lemma dense_eq p q : p <= q -> q < n -> (dense p == dense q) = (key p == key q).
Proof.
move=> /subnKC <-; elim: (q - p) => [|d IH]; first by rewrite addn0 !eqxx.
rewrite addnS => qn; rewrite denseS.
have {}IH := IH (ltnW qn).
case: (boolP (key (p + d).+1 == key (p + d))) => [/eqP -> |ne] /=.
  by rewrite addn0.
rewrite addn1; apply/esym; rewrite [RHS]eqn_leq [_.+1 <= _]leqNgt ltnS.
rewrite dense_le ?leq_addr ?andbF //.
apply/negbTE/negP => /eqP e.
case/negP: ne; rewrite eq_sym -e; apply/eqP/le_anti.
by rewrite [X in _ && X]key_sorted ?leq_addr ?(ltnW qn) // e key_sorted.
Qed.

Lemma dense_leq p q :
  p < n -> q < n -> (dense p <= dense q) = le (key p) (key q).
Proof.
move=> pn qn; case: (leqP p q) => [pq|/ltnW qp].
  by rewrite dense_le // key_sorted.
have := dense_eq qp pn; rewrite eqn_leq dense_le // andTb => ->.
apply/eqP/idP => [->|pq]; first exact: le_refl.
by apply: le_anti; rewrite pq key_sorted.
Qed.

End RankFold.

(** ** Orders on characters, rank records and strings *)

Lemma code_inj : injective code.
Proof. exact: can_inj codeK. Qed.

Lemma code_eq (a b : ascii) : (code a == code b) = (a == b).
Proof. by apply/eqP/eqP => [/code_inj|->]. Qed.

Lemma le_char_refl : reflexive le_char.
Proof. by move=> a; rewrite /le_char. Qed.

Lemma le_char_total : total le_char.
Proof. by move=> a b; exact: leq_total. Qed.

Lemma le_char_trans : transitive le_char.
Proof. by move=> b a c; exact: leq_trans. Qed.

Lemma le_char_anti : antisymmetric le_char.
Proof. by move=> a b; rewrite /le_char -eqn_leq => /eqP /code_inj. Qed.

Lemma le_pair_refl : reflexive le_pair.
Proof. by move=> a; rewrite /le_pair eqxx leqnn orbT. Qed.

Lemma le_pair_total : total le_pair.
Proof.
move=> [a1 a2] [b1 b2]; rewrite /le_pair /= [b1 == a1]eq_sym.
case: (ltngtP a1 b1) => //= _; exact: leq_total.
Qed.

Lemma le_pair_trans : transitive le_pair.
Proof.
move=> [b1 b2] [a1 a2] [c1 c2]; rewrite /le_pair /=.
case: (ltngtP a1 b1) => //= [ab|->].
  by case: (ltngtP b1 c1) => //= [bc|<-] _ _; rewrite ?ab // (ltn_trans ab bc).
by case: (ltngtP b1 c1) => //= _; exact: leq_trans.
Qed.

Lemma le_pair_anti : antisymmetric le_pair.
Proof.
move=> [a1 a2] [b1 b2]; rewrite /le_pair /= [b1 == a1]eq_sym.
by case: (ltngtP a1 b1) => //= ->; rewrite -eqn_leq => /eqP ->.
Qed.

Lemma lex_le_refl : reflexive lex_le.
Proof. by elim=> [|x a IH] //=; rewrite eqxx IH orbT. Qed.

Lemma lex_le_total : total lex_le.
Proof.
elim=> [|x a IH] [|y b] //=; rewrite [y == x]eq_sym -code_eq.
by case: (ltngtP (code x) (code y)) => //= _; exact: IH.
Qed.

Lemma lex_le_anti : antisymmetric lex_le.
Proof.
elim=> [|x a IH] [|y b] //=; rewrite [y == x]eq_sym -code_eq.
case: (ltngtP (code x) (code y)) => //= /code_inj -> ab.
by rewrite (IH b ab).
Qed.

Lemma lex_le_trans : transitive lex_le.
Proof.
elim=> [|y b IH] [|x a] [|z c] //=; rewrite -!code_eq.
case: (ltngtP (code x) (code y)) => //= [xy|->].
  by case: (ltngtP (code y) (code z)) => //= [yz|<-] _ _;
     rewrite ?xy // (ltn_trans xy yz).
by case: (ltngtP (code y) (code z)) => //= _; exact: IH.
Qed.

Lemma lex_le_eq (a b : str) : lex_le a b && lex_le b a = (a == b).
Proof.
apply/idP/eqP => [/lex_le_anti //|->]; by rewrite lex_le_refl.
Qed.

Lemma lex_le_neq (a b : str) : a != b -> lex_le a b = ~~ lex_le b a.
Proof.
move=> ne; have := lex_le_total a b; have := lex_le_eq a b.
by rewrite (negbTE ne); case: (lex_le a b); case: (lex_le b a).
Qed.

Lemma lex_le_cat (a1 b1 a2 b2 : str) :
  size a1 = size b1 ->
  lex_le (a1 ++ a2) (b1 ++ b2)
  = if a1 == b1 then lex_le a2 b2 else lex_le a1 b1.
Proof.
elim: a1 b1 => [|x a1 IH] [|y b1] //= [sz].
rewrite eqseq_cons IH // -code_eq.
by case: (ltngtP (code x) (code y)).
Qed.

(** ** Stable argsort *)

Section Argsort.

Variables (K : Type) (le : rel K) (d : K).
Hypothesis le_total : total le.

Lemma size_argsort (a : seq K) : size (argsort le d a) = size a.
Proof. by rewrite /argsort size_sort size_iota. Qed.

Lemma perm_argsort (a : seq K) : perm_eq (argsort le d a) (iota 0 (size a)).
Proof. by rewrite /argsort perm_sort. Qed.

Lemma argsort_lt (a : seq K) p :
  p < size a -> nth 0 (argsort le d a) p < size a.
Proof.
move=> pa; have : nth 0 (argsort le d a) p \in argsort le d a.
  by rewrite mem_nth // size_argsort.
by rewrite (perm_mem (perm_argsort a)) mem_iota.
Qed.

(** Stability: entries that compare equal stay in index order. *)
Lemma argsort_stable (a : seq K) :
  sorted [rel p q | le (nth d a p) (nth d a q)
                    && (le (nth d a q) (nth d a p) ==> (p < q))]
         (argsort le d a).
Proof.
apply: (@sort_iota_stable (relpre (nth d a) le)).
by move=> p q; exact: le_total.
Qed.

Lemma perm_gather (a : seq K) (sa : seq nat) :
  size a = size sa -> perm_eq (gather 0 sa (argsort le d a)) sa.
Proof.
move=> sz; rewrite -[X in perm_eq _ X](mkseq_nth 0) /gather /mkseq -sz.
exact/perm_map/perm_argsort.
Qed.

Lemma size_gather (a : seq K) (sa : seq nat) :
  size (gather 0 sa (argsort le d a)) = size a.
Proof. by rewrite /gather size_map size_argsort. Qed.

(** Sorting positions by key and reading the array through them yields a
    sequence sorted for every relation that the key order, refined by the
    previous position, implies. *)
Lemma sorted_gather (keyf : nat -> K) (sa : seq nat) (R : rel nat) :
  (forall p q, p < size sa -> q < size sa ->
     le (keyf (nth 0 sa p)) (keyf (nth 0 sa q)) ->
     (le (keyf (nth 0 sa q)) (keyf (nth 0 sa p)) -> p < q) ->
     R (nth 0 sa p) (nth 0 sa q)) ->
  sorted R (gather 0 sa (argsort le d [seq keyf i | i <- sa])).
Proof.
move=> HR; rewrite /gather sorted_map.
have := argsort_stable [seq keyf i | i <- sa].
apply: (@sub_in_sorted _ (gtn (size sa))); last first.
  apply/allP => p; rewrite (perm_mem (perm_argsort _)) mem_iota size_map.
  by rewrite add0n.
move=> p q; rewrite !inE => pn qn /=.
rewrite !(nth_map 0) // => /andP[pq /implyP qp].
exact: HR.
Qed.

End Argsort.

(** ** Ranks of a sorted sequence of positions *)

Section RanksOfSorted.

Variables (K : eqType) (le : rel K) (keyf : nat -> K) (n : nat).
Variables (key : nat -> K) (pos : nat -> nat) (sa : seq nat).

Hypothesis le_refl : reflexive le.
Hypothesis le_anti : antisymmetric le.
Hypothesis le_trans : transitive le.
Hypothesis sa_perm : perm_eq sa (iota 0 n).
Hypothesis sa_sorted : sorted (relpre keyf le) sa.
Hypothesis pos_sa : forall p, p < n -> pos p = nth 0 sa p.
Hypothesis key_sa : forall p, p < n -> key p = keyf (nth 0 sa p).

Let size_sa : size sa = n.
Proof. by rewrite (perm_size sa_perm) size_iota. Qed.

Let uniq_sa : uniq sa.
Proof. by rewrite (perm_uniq sa_perm) iota_uniq. Qed.

Let mem_sa i : (i \in sa) = (i < n).
Proof. by rewrite (perm_mem sa_perm) mem_iota add0n. Qed.

Let pos_inj : {in gtn n &, injective pos}.
Proof.
move=> p q; rewrite !inE => pn qn; rewrite !pos_sa // => /eqP.
by rewrite nth_uniq ?size_sa // => /eqP.
Qed.

Let pos_lt p : p < n -> pos p < n.
Proof. by move=> pn; rewrite pos_sa // -mem_sa mem_nth // size_sa. Qed.

Let key_sorted p q : p <= q -> q < n -> le (key p) (key q).
Proof.
move=> pq qn; have pn := leq_ltn_trans pq qn.
rewrite !key_sa //.
have tr : transitive (relpre keyf le) by move=> y x z; exact: le_trans.
have rf : reflexive (relpre keyf le) by move=> x; exact: le_refl.
by apply: (sorted_leq_nth tr rf 0 sa_sorted); rewrite ?inE ?size_sa.
Qed.

Lemma size_ranks_of_sorted : size (rank_fold key pos n) = n.
Proof. exact: size_rank_fold. Qed.

Lemma nth_ranks_of_sorted p :
  p < n -> nth 0 (rank_fold key pos n) (nth 0 sa p) = dense key p.
Proof. by move=> pn; rewrite -pos_sa // nth_rank_fold. Qed.

Lemma ranks_of_sorted_leq i j :
  i < n -> j < n ->
  (nth 0 (rank_fold key pos n) i <= nth 0 (rank_fold key pos n) j)
  = le (keyf i) (keyf j).
Proof.
rewrite -!mem_sa => isa jsa.
rewrite -{1 2}(nth_index 0 isa) -{1 2}(nth_index 0 jsa).
have ip : index i sa < n by rewrite -size_sa index_mem.
have jp : index j sa < n by rewrite -size_sa index_mem.
rewrite !nth_ranks_of_sorted // (dense_leq le_refl le_anti key_sorted) //.
by rewrite !key_sa.
Qed.

(** When some rank reaches [n - 1], no two positions share a key. *)
Lemma ranks_of_sorted_max i :
  i < n -> nth 0 (rank_fold key pos n) i = n.-1 ->
  forall a b, a < n -> b < n -> keyf a = keyf b -> a = b.
Proof.
rewrite -mem_sa => isa; rewrite -(nth_index 0 isa).
have ip : index i sa < n by rewrite -size_sa index_mem.
rewrite nth_ranks_of_sorted // => dmax.
have pmax : index i sa = n.-1.
  apply/eqP; rewrite eqn_leq -ltnS -{2}dmax dense_ub andbT.
  by rewrite prednK // (leq_ltn_trans _ ip).
rewrite pmax in dmax.
have dq q : q < n -> dense key q = q.
  by move=> qn; apply: (dense_full dmax); rewrite -ltnS prednK // (leq_ltn_trans _ qn).
have main p q : p <= q -> q < n ->
    keyf (nth 0 sa p) = keyf (nth 0 sa q) -> p = q.
  move=> pq qn e; have pn := leq_ltn_trans pq qn.
  have := dense_eq le_anti key_sorted pq qn.
  by rewrite !key_sa // e eqxx !dq // => /eqP.
move=> a b; rewrite -!mem_sa => asa bsa.
rewrite -{1 2}(nth_index 0 asa) -{1 2}(nth_index 0 bsa) => e.
have ap : index a sa < n by rewrite -size_sa index_mem.
have bp : index b sa < n by rewrite -size_sa index_mem.
case: (leqP (index a sa) (index b sa)) => [ab|/ltnW ba].
  by rewrite (main _ _ ab bp e).
by rewrite -(main _ _ ba ap (esym e)).
Qed.

End RanksOfSorted.

(** ** Prefixes of rotations

    Round [k] of the doubling compares positions by the first [k] characters
    read circularly from them. *)

Section Prefixes.

Variable s : str.

Local Notation cy := (cy s).
Local Notation pref := (pref s).
Local Notation lt_pref := (lt_pref s).

Lemma size_pref k i : size (pref k i) = k.
Proof. by rewrite /pref size_map size_iota. Qed.

Lemma cy_small i : i < size s -> cy i = nth nul s i.
Proof. by move=> lt; rewrite /cy modn_small. Qed.

Lemma prefS k i : pref k.+1 i = cy i :: pref k i.+1.
Proof.
rewrite /pref /= addn0; congr cons.
rewrite (iotaDl 1 0 k) -map_comp; apply: eq_map => e /=.
by rewrite addnA addn1.
Qed.

Lemma prefD k k' i : pref (k + k') i = pref k i ++ pref k' (i + k).
Proof.
rewrite /pref iotaD map_cat add0n; congr cat.
rewrite -[k in iota k k']addn0 iotaDl -map_comp; apply: eq_map => e /=.
by rewrite addnA.
Qed.

Lemma pref_mod k i : pref k (i %% size s) = pref k i.
Proof. by apply: eq_map => e; rewrite /cy modnDml. Qed.

Lemma lt_pref_trans k : transitive (lt_pref k).
Proof.
move=> j i l /andP[ij /implyP ji] /andP[jl /implyP lj].
rewrite /lt_pref (lex_le_trans ij jl) /=; apply/implyP => li.
apply: ltn_trans (ji _) (lj _).
  exact: lex_le_trans jl li.
exact: lex_le_trans li ij.
Qed.

Lemma lt_pref_irr k : irreflexive (lt_pref k).
Proof. by move=> i; rewrite /lt_pref lex_le_refl ltnn. Qed.

End Prefixes.

Arguments pref s k i : simpl never.
Arguments cy s i : simpl never.

(** ** The doubling invariant *)

Section Doubling.

Variable s : str.
Hypothesis s_gt0 : 0 < size s.

Local Notation round_inv := (round_inv s).

Lemma pref1_le i j :
  i < size s -> j < size s ->
  lex_le (pref s 1 i) (pref s 1 j) = le_char (nth nul s i) (nth nul s j).
Proof.
move=> ilt jlt; rewrite !prefS /= !cy_small // andbT /le_char.
by rewrite [in RHS]leq_eqVlt code_eq orbC.
Qed.

Lemma initial_ranksE sa :
  initial_ranks s sa
  = rank_fold (fun p => nth nul s (nth 0 sa p)) (nth 0 sa) (size s).
Proof. by []. Qed.

Lemma init_inv : round_inv (initial_state s).
Proof.
have tot : total (relpre (nth nul s) le_char).
  by move=> i j; exact: le_char_total.
have perm := perm_argsort le_char nul s.
split; rewrite ?[st_k _]/= ?[st_sa _]/= ?[st_ranks _]/=.
- exact: perm.
- have := argsort_stable nul le_char_total s.
  apply: (@sub_in_sorted _ (gtn (size s))); last first.
    by apply/allP => p; rewrite (perm_mem perm) mem_iota add0n.
  move=> p q; rewrite !inE => pn qn /= /andP[pq qp].
  by rewrite /lt_pref !pref1_le // pq qp.
- rewrite initial_ranksE.
  exact: (size_ranks_of_sorted _ perm).
- move=> i j ilt jlt; rewrite initial_ranksE pref1_le //.
  apply: (@ranks_of_sorted_leq _ le_char (nth nul s) _ _ _ _
            le_char_refl le_char_anti le_char_trans perm) => //.
  exact: sort_sorted.
Qed.

Lemma pref_eq_take k k' i j :
  pref s (k + k') i = pref s (k + k') j -> pref s k i = pref s k j.
Proof.
by rewrite !prefD => /eqP; rewrite eqseq_cat ?size_pref // => /andP[/eqP].
Qed.

(** Comparing rank records amounts to comparing prefixes twice as long. *)
Lemma rank_pair_le st i j :
  round_inv st -> i < size s -> j < size s ->
  le_pair (rank_pair (st_ranks st) (st_k st) (size s) i)
          (rank_pair (st_ranks st) (st_k st) (size s) j)
  = lex_le (pref s (st_k st * 2) i) (pref s (st_k st * 2) j).
Proof.
case=> _ _ sz Hr ilt jlt.
rewrite /rank_pair /le_pair /= muln2 -addnn !prefD lex_le_cat ?size_pref //.
rewrite -(pref_mod s _ (i + _)) -(pref_mod s _ (j + _)).
have il : (i + st_k st) %% size s < size s by rewrite ltn_pmod.
have jl : (j + st_k st) %% size s < size s by rewrite ltn_pmod.
rewrite ltnNge eqn_leq !Hr // lex_le_eq.
case: eqP => [->|/eqP ne]; first by rewrite lex_le_refl.
by rewrite /= orbF -lex_le_neq.
Qed.

Lemma calculate_ranksE sa k ranks :
  calculate_ranks sa k ranks
  = let keys := [seq rank_pair ranks k (size ranks) i | i <- sa] in
    let si := argsort le_pair (0, 0) keys in
    rank_fold (fun p => nth (0, 0) keys (nth 0 si p))
              (fun p => nth 0 sa (nth 0 si p)) (size ranks).
Proof. by []. Qed.

Lemma calculate_ranks_spec st sa :
  round_inv st -> perm_eq sa (iota 0 (size s)) ->
  let r := calculate_ranks sa (st_k st) (st_ranks st) in
  [/\ size r = size s,
      forall i j, i < size s -> j < size s ->
        (nth 0 r i <= nth 0 r j)
        = lex_le (pref s (st_k st * 2) i) (pref s (st_k st * 2) j)
    & forall i, i < size s -> nth 0 r i = (size s).-1 ->
      forall a b, a < size s -> b < size s ->
        pref s (st_k st * 2) a = pref s (st_k st * 2) b -> a = b].
Proof.
move=> inv perm; rewrite calculate_ranksE.
have sz : size (st_ranks st) = size s by case: inv.
have sza : size sa = size s by rewrite (perm_size perm) size_iota.
rewrite sz; set keyf := rank_pair (st_ranks st) (st_k st) (size s).
set keys := [seq keyf i | i <- sa].
set si := argsort le_pair (0, 0) keys.
set key := fun p => nth (0, 0) keys (nth 0 si p).
set pos := fun p => nth 0 sa (nth 0 si p).
rewrite /=.
have szk : size keys = size s by rewrite size_map.
have perm2 : perm_eq (gather 0 sa si) (iota 0 (size s)).
  by apply: perm_trans perm; apply: perm_gather; rewrite size_map.
have sorted2 : sorted (relpre keyf le_pair) (gather 0 sa si).
  by apply: (sorted_gather (0, 0) le_pair_total) => p q _ _ H _.
have pos_sa p : p < size s -> pos p = nth 0 (gather 0 sa si) p.
  by move=> pn; rewrite /gather (nth_map 0) // size_argsort szk.
have key_sa p : p < size s -> key p = keyf (nth 0 (gather 0 sa si) p).
  move=> pn; rewrite -pos_sa // /key /keys (nth_map 0) // sza -szk.
  by apply: argsort_lt; rewrite szk.
split.
- exact: (size_ranks_of_sorted _ perm2).
- move=> i j ilt jlt; rewrite -rank_pair_le //.
  exact: (ranks_of_sorted_leq le_pair_refl le_pair_anti le_pair_trans
            perm2 sorted2 pos_sa key_sa).
- move=> i ilt imax a b alt blt e.
  apply: (ranks_of_sorted_max le_pair_refl le_pair_anti le_pair_trans
            perm2 sorted2 pos_sa key_sa ilt imax alt blt).
  by apply: le_pair_anti; rewrite !rank_pair_le // e lex_le_refl.
Qed.

Lemma round_step st :
  round_inv st ->
  let st' := doubling_round (size s) st in
  round_inv st'
  /\ (nth 0 (st_ranks st') (last 0 (st_sa st')) = (size s).-1 ->
      forall a b, a < size s -> b < size s ->
        pref s (st_k st') a = pref s (st_k st') b -> a = b).
Proof.
move=> inv; case: (inv) => perm srt sz Hr.
have sza : size (st_sa st) = size s by rewrite (perm_size perm) size_iota.
have mem_sa p : p < size s -> nth 0 (st_sa st) p < size s.
  move=> pn; have : nth 0 (st_sa st) p \in st_sa st by rewrite mem_nth ?sza.
  by rewrite (perm_mem perm) mem_iota add0n.
rewrite doubling_roundE /=.
set keyf := rank_pair (st_ranks st) (st_k st) (size s).
set sa' := gather 0 _ _.
have perm' : perm_eq sa' (iota 0 (size s)).
  by apply: perm_trans perm; apply: perm_gather; rewrite size_map.
have [szr Hr' Hmax] := calculate_ranks_spec inv perm'.
split; first split=> //=.
- apply: (sorted_gather (0, 0) le_pair_total) => p q.
  rewrite sza => pn qn; rewrite !rank_pair_le ?mem_sa // => pq qp.
  rewrite /lt_pref pq /=; apply/implyP => rev.
  have e : pref s (st_k st * 2) (nth 0 (st_sa st) q)
           = pref s (st_k st * 2) (nth 0 (st_sa st) p).
    by apply: lex_le_anti; rewrite rev pq.
  have := sorted_ltn_nth (@lt_pref_trans s (st_k st)) 0 srt.
  move=> /(_ p q); rewrite !inE sza => /(_ pn qn (qp rev)) /andP[_ /implyP].
  apply; move: e; rewrite muln2 -addnn => /pref_eq_take ->.
  exact: lex_le_refl.
- move=> /= imax; apply: Hmax imax.
  have sz' : size sa' = size s by rewrite (perm_size perm') size_iota.
  have : last 0 sa' \in sa' by rewrite -nth_last mem_nth // sz' prednK.
  by rewrite (perm_mem perm') mem_iota add0n.
Qed.

(** The loop, given enough fuel, stops in a state satisfying the invariant,
    either because [k] reached the length or because all [k]-prefixes are
    distinct. *)
Lemma doubling_loop_inv fuel st :
  round_inv st -> 0 < st_k st -> size s <= st_k st + fuel ->
  exists st', [/\ round_inv st',
                  doubling_loop fuel (size s) st = st_sa st'
                & size s <= st_k st'
                  \/ (forall a b, a < size s -> b < size s ->
                        pref s (st_k st') a = pref s (st_k st') b -> a = b)].
Proof.
elim: fuel st => [|fuel IH] st inv kpos.
  by rewrite addn0 => nk; exists st; split=> //; left.
move=> nk /=; case: ltnP => [kn|nk']; last by exists st; split=> //; left.
have [inv' Hmax] := round_step inv.
rewrite subn1; case: eqP => [/Hmax inj|_].
  by exists (doubling_round (size s) st); split=> //; right.
apply: IH => //=; first by rewrite muln_gt0 kpos.
by rewrite muln2 -addnn -addnA (leq_trans nk) // leq_add2l -add1n leq_add2r.
Qed.

End Doubling.

(** The result of the loop does not depend on the fuel once there is as much
    of it as the input is long: the loop always leaves through its own exits. *)
Lemma doubling_loop_fuel n st fuel1 fuel2 :
  0 < st_k st -> n <= st_k st + fuel1 -> n <= st_k st + fuel2 ->
  doubling_loop fuel1 n st = doubling_loop fuel2 n st.
Proof.
elim: fuel1 fuel2 st => [|f1 IH] [|f2] st kpos //=.
- by rewrite addn0 => nk _; rewrite ltnNge nk.
- by rewrite addn0 => _ nk; rewrite ltnNge nk.
move=> n1 n2; case: ltnP => // kn; case: eqP => // _.
have step f : n <= st_k st + f.+1 -> n <= st_k st * 2 + f.
  move=> nk.
  by rewrite muln2 -addnn -addnA (leq_trans nk) // leq_add2l -add1n leq_add2r.
by apply: IH; rewrite /= ?muln_gt0 ?kpos ?step.
Qed.

(** The array returned is the one held after some number of rounds. *)
Lemma doubling_loop_iter fuel n st :
  exists r, doubling_loop fuel n st = st_sa (iter r (doubling_round n) st).
Proof.
elim: fuel st => [|fuel IH] st /=; first by exists 0.
case: ifP => _; last by exists 0.
case: ifP => _; first by exists 1.
by have [r ->] := IH (doubling_round n st); exists r.+1; rewrite iterSr.
Qed.

(** ** The suffix array is a permutation *)

Lemma perm_doubling_round n st :
  perm_eq (st_sa st) (iota 0 n) ->
  perm_eq (st_sa (doubling_round n st)) (iota 0 n).
Proof.
move=> perm; rewrite doubling_roundE /=.
by apply: perm_trans perm; apply: perm_gather; rewrite size_map.
Qed.

Lemma perm_rounds (s : str) r :
  perm_eq (st_sa (iter r (doubling_round (size s)) (initial_state s)))
          (iota 0 (size s)).
Proof.
elim: r => [|r IH] /=; first exact: perm_argsort.
exact: perm_doubling_round.
Qed.

Lemma perm_build_suffix_array (s : str) :
  perm_eq (build_suffix_array s) (iota 0 (size s)).
Proof.
rewrite build_suffix_arrayE.
have [r ->] := doubling_loop_iter (size s) (size s) (initial_state s).
exact: perm_rounds.
Qed.

Lemma size_build_suffix_array (s : str) :
  size (build_suffix_array s) = size s.
Proof. by rewrite (perm_size (perm_build_suffix_array s)) size_iota. Qed.

(** ** Suffix order for a string closed by a unique last character *)

Section UniqueLast.

Variable s : str.

(** The last character occurs nowhere else. *)
Hypothesis last_unique :
  forall i, i < size s -> nth nul s i = nth nul s (size s).-1 ->
  i = (size s).-1.

Lemma succ_lt i j :
  i < size s -> j < size s -> i != j -> nth nul s i = nth nul s j ->
  i.+1 < size s /\ j.+1 < size s.
Proof.
move=> ilt jlt ne e.
have npos : 0 < size s by exact: leq_ltn_trans ilt.
have H a b : a < size s -> b < size s -> a != b ->
    nth nul s a = nth nul s b -> a.+1 < size s.
  move=> alt blt nab eab; rewrite ltn_neqAle alt andbT.
  apply: contra nab => /eqP an; have a1 : a = (size s).-1 by rewrite -an.
  have := last_unique blt; rewrite -eab a1 => /(_ erefl) ->.
  by rewrite eqxx.
by split; [apply: (H i j) | apply: (H j i)]; rewrite // eq_sym.
Qed.

(** Prefixes long enough to reach the last character tell positions apart. *)
Lemma pref_long_inj k i j :
  i < size s -> j < size s -> size s <= k + i -> size s <= k + j ->
  pref s k i = pref s k j -> i = j.
Proof.
elim: k i j => [|k IH] i j ilt jlt.
  by rewrite add0n leqNgt ilt.
rewrite !addSn => ki kj; rewrite !prefS !cy_small // => -[e epref].
apply/eqP; case: (boolP (i == j)) => // ne.
have [i1 j1] := succ_lt ilt jlt ne e.
have := IH i.+1 j.+1 i1 j1; rewrite !addnS => /(_ ki kj epref) [ij].
by rewrite ij eqxx in ne.
Qed.

(** A strict comparison of prefixes is a comparison of suffixes. *)
Lemma pref_le_suffix k i j :
  i < size s -> j < size s ->
  lex_le (pref s k i) (pref s k j) -> pref s k i != pref s k j ->
  suffix_le s i j.
Proof.
rewrite /suffix_le.
elim: k i j => [|k IH] i j ilt jlt; first by rewrite /pref.
rewrite !prefS !cy_small // (drop_nth nul ilt) (drop_nth nul jlt) /= eqseq_cons.
case/orP=> [->//|/andP[/eqP e le']]; rewrite e eqxx /= => ne.
have nij : i != j by apply: contra ne => /eqP ->.
have [i1 j1] := succ_lt ilt jlt nij e.
by rewrite (IH i.+1 j.+1) ?orbT.
Qed.

Hypothesis s_gt0 : 0 < size s.

Lemma build_suffix_array_sorted : sorted (suffix_le s) (build_suffix_array s).
Proof.
rewrite build_suffix_arrayE.
have [|st [inv -> exit]] :=
  @doubling_loop_inv s s_gt0 (size s) (initial_state s) (init_inv s) isT.
  by rewrite /= add1n.
case: inv => perm srt _ _.
apply: (@sub_in_sorted _ (gtn (size s))) srt; last first.
  by apply/allP => p; rewrite (perm_mem perm) mem_iota add0n.
move=> i j; rewrite !inE => ilt jlt /andP[le _].
case: (boolP (i == j)) => [/eqP ->|ne]; first exact: lex_le_refl.
apply: pref_le_suffix le _ => //.
apply: contra ne => /eqP e; apply/eqP.
case: exit => [nk|]; last exact.
by apply: pref_long_inj e => //; rewrite (leq_trans nk) ?leq_addr.
Qed.

End UniqueLast.

(** ** The reference suffix array *)

Lemma reference_le_total s : total (reference_le s).
Proof.
move=> i j; rewrite /reference_le [drop j s == _]eq_sym.
by case: ifP => _; [exact: leq_total | exact: lex_le_total].
Qed.

Lemma drop_inj (s : str) i j :
  i <= size s -> j <= size s -> drop i s = drop j s -> i = j.
Proof.
move=> ile jle /(congr1 size); rewrite !size_drop => e.
by rewrite -(subKn ile) -(subKn jle) e.
Qed.

Lemma reference_le_suffix s i j :
  i <= size s -> j <= size s -> reference_le s i j = suffix_le s i j.
Proof.
move=> ile jle; rewrite /reference_le /suffix_le.
case: eqP => // e; rewrite e lex_le_refl.
by rewrite (drop_inj ile jle e) leqnn.
Qed.

Lemma suffix_le_trans s : transitive (suffix_le s).
Proof. by move=> j i l; exact: lex_le_trans. Qed.

Lemma suffix_le_anti s :
  {in gtn (size s) &, antisymmetric (suffix_le s)}.
Proof.
move=> i j; rewrite !inE => ilt jlt /lex_le_anti.
by apply: drop_inj; exact: ltnW.
Qed.

Lemma perm_reference s : perm_eq (reference_suffix_array s) (iota 0 (size s)).
Proof. by rewrite /reference_suffix_array perm_sort. Qed.

Lemma reference_sorted s : sorted (suffix_le s) (reference_suffix_array s).
Proof.
have := sort_sorted (@reference_le_total s) (iota 0 (size s)).
apply: (@sub_in_sorted _ (gtn (size s))); last first.
  by apply/allP => p; rewrite mem_sort mem_iota add0n.
by move=> i j; rewrite !inE => ilt jlt; rewrite reference_le_suffix // ltnW.
Qed.

(** A sequence of all positions sorted by suffix is the reference array. *)
Lemma sorted_is_reference s sa :
  perm_eq sa (iota 0 (size s)) -> sorted (suffix_le s) sa ->
  sa = reference_suffix_array s.
Proof.
move=> perm srt.
have sub : {subset sa <= gtn (size s)}.
  by move=> p; rewrite (perm_mem perm) mem_iota add0n.
apply: (@sorted_eq_in _ (suffix_le s)) => //.
- by move=> j i l _ _ _; exact: suffix_le_trans.
- by move=> i j /sub ilt /sub jlt; exact: suffix_le_anti.
- exact: reference_sorted.
- by rewrite (permPl perm) perm_sym perm_reference.
Qed.

(** ** Strings closed by the sentinel *)

Lemma over_alphabet_sentinel (S : str) : over_alphabet S -> sentinel \notin S.
Proof.
move=> /allP al; apply/negP => /al.
by rewrite /alphabet /py /= !inE.
Qed.

Lemma over_alphabet_nul (S : str) : over_alphabet S -> nul \notin S.
Proof.
move=> /allP al; apply/negP => /al.
by rewrite /alphabet /py /= !inE.
Qed.

Lemma nth_sentinel_last (S : str) :
  nth nul (S ++ [:: sentinel]) (size S) = sentinel.
Proof. by rewrite nth_cat ltnn subnn. Qed.

Lemma sentinel_last_unique (S : str) :
  sentinel \notin S ->
  forall i, i < size (S ++ [:: sentinel]) ->
    nth nul (S ++ [:: sentinel]) i
    = nth nul (S ++ [:: sentinel]) (size (S ++ [:: sentinel])).-1 ->
    i = (size (S ++ [:: sentinel])).-1.
Proof.
move=> nS i; rewrite size_cat /= addn1 /= ltnS leq_eqVlt nth_sentinel_last.
case/orP=> [/eqP //|ilt]; rewrite nth_cat ilt => e.
by case/negP: nS; rewrite -e mem_nth.
Qed.

Lemma build_suffix_array_reference (S : str) :
  sentinel \notin S ->
  build_suffix_array (S ++ [:: sentinel])
  = reference_suffix_array (S ++ [:: sentinel]).
Proof.
move=> nS; apply: sorted_is_reference; first exact: perm_build_suffix_array.
apply: build_suffix_array_sorted; first exact: sentinel_last_unique.
by rewrite size_cat addn1.
Qed.

(** ** The encoder *)

Lemma py_mod_pred (i m : nat) :
  i < m -> Z.to_nat (py_mod (Z.of_nat i - 1) (Z.of_nat m)) = predc m i.
Proof.
move=> /ltP ilt; rewrite /py_mod /predc.
case: i ilt => [|i] ilt.
  have -> : (Z.of_nat 0 - 1 = Z.of_nat m - 1 + (-1) * Z.of_nat m)%Z by lia.
  rewrite Z_mod_plus_full Z.mod_small; last by lia.
  by lia.
rewrite Z.mod_small; last by lia.
by lia.
Qed.

Lemma burrows_wheeler_conversionE (s : str) :
  burrows_wheeler_conversion s
  = Returns (join_chars
               [seq nth nul (s ++ [:: sentinel])
                        (predc (size s).+1 i)
               | i <- build_suffix_array (s ++ [:: sentinel])]).
Proof.
rewrite burrows_wheeler_conversion_unfold /=; congr (Returns (join_chars _)).
apply/eq_in_map => i.
rewrite (perm_mem (perm_build_suffix_array _)) mem_iota add0n => ilt.
by rewrite py_mod_pred // size_cat addn1.
Qed.

(** ** The last-to-first mapper *)

Lemma first_occurrence_fold (l : str) a (d : dict) c :
  foldl (fun first ic =>
           if first ic.2 is Some _ then first else dict_set first ic.2 ic.1)
        d (zip (iota a (size l)) l) c
  = if d c is Some v then Some v
    else if c \in l then Some (a + index c l) else None.
Proof.
elim: l a d => [|x l IH] a d /=; first by case: (d c).
rewrite IH in_cons [x == c]eq_sym.
case dx: (d x) => [v|].
  case dc: (d c) => [w|] //.
  have -> : (c == x) = false by apply/eqP => e; rewrite e dx in dc.
  by rewrite /= addSnnS.
rewrite /dict_set; case: eqP => [->|_]; first by rewrite dx addn0.
by case: (d c) => //; rewrite addSnnS.
Qed.

(** Every character of the first column is a key of [first], bound to the
    position of its first occurrence: no lookup fails. *)
Lemma first_occurrence_defined (first_col : str) c :
  c \in first_col ->
  first_occurrence first_col c = Some (index c first_col).
Proof.
by move=> cin; rewrite /first_occurrence /enumerate first_occurrence_fold cin.
Qed.

Lemma dict_get_first (first_col : str) c :
  c \in first_col -> dict_get (first_occurrence first_col) c = index c first_col.
Proof. by move=> cin; rewrite /dict_get first_occurrence_defined. Qed.

Section LastToFirstFold.

Variable first : dict.

Let step (acc : seq nat * counter) (ic : nat * ascii) :=
  let: (last_to_first, char_counts) := acc in
  let first_col_index := dict_get first ic.2 + char_counts ic.2 in
  (set_nth 0 last_to_first ic.1 first_col_index,
   counter_set char_counts ic.2 (char_counts ic.2 + 1)).

Lemma last_to_first_fold (pre l : str) (r : seq nat) (cnt : counter) :
  size r = size pre + size l ->
  (forall c, cnt c = count_mem c pre) ->
  let res := (foldl step (r, cnt) (zip (iota (size pre) (size l)) l)).1 in
  [/\ size res = size r,
      forall i, i < size pre -> nth 0 res i = nth 0 r i
    & forall i, size pre <= i -> i < size pre + size l ->
        nth 0 res i
        = dict_get first (nth nul (pre ++ l) i)
          + count_mem (nth nul (pre ++ l) i) (take i (pre ++ l))].
Proof.
elim: l pre r cnt => [|x l IH] pre r cnt sz Hcnt.
  split=> // i le lt; move: (leq_ltn_trans le lt).
  by rewrite /= addn0 ltnn.
rewrite /= -/step.
set r1 := set_nth 0 r (size pre) _.
set cnt1 := counter_set cnt x _.
have sz1 : size r1 = size r.
  rewrite size_set_nth; apply/maxn_idPr.
  by rewrite sz /= addnS ltnS leq_addr.
have := IH (rcons pre x) r1 cnt1.
rewrite size_rcons cat_rcons => /(_ _ _)[].
- by rewrite sz1 sz /= addnS addSn.
- move=> c; rewrite /cnt1 /counter_set -cats1 count_cat /= addn0 Hcnt.
  by rewrite [x == c]eq_sym; case: eqP => [->|_] //; rewrite addn0 Hcnt.
move=> szres Hlow Hhigh; split.
- by rewrite szres.
- move=> i ilt; have il : i < (size pre).+1 by rewrite ltnS ltnW.
  rewrite (Hlow _ il).
  by rewrite /r1 nth_set_nth /= (ltn_eqF ilt).
- move=> i; rewrite leq_eqVlt => /orP[/eqP <-|lt] ilt.
    rewrite (Hlow _ (ltnSn _)) /r1 nth_set_nth /= eqxx.
    by rewrite nth_cat ltnn subnn /= take_size_cat // Hcnt.
  by apply: Hhigh => //; rewrite addSnnS.
Qed.

End LastToFirstFold.

Lemma size_map_last_to_first (bwt : str) :
  size (map_last_to_first bwt) = size bwt.
Proof.
rewrite map_last_to_firstE /enumerate /=.
have [] := @last_to_first_fold (first_occurrence (sort le_char bwt))
            [::] bwt (nseq (size bwt) 0) counter_empty => //.
  by rewrite size_nseq.
by move=> -> _ _; rewrite size_nseq.
Qed.

Lemma nth_map_last_to_first (bwt : str) i :
  i < size bwt ->
  nth 0 (map_last_to_first bwt) i
  = index (nth nul bwt i) (sort le_char bwt)
    + count_mem (nth nul bwt i) (take i bwt).
Proof.
move=> ilt; rewrite map_last_to_firstE /enumerate /=.
have [] := @last_to_first_fold (first_occurrence (sort le_char bwt))
            [::] bwt (nseq (size bwt) 0) counter_empty => //.
  by rewrite size_nseq.
move=> _ _ /(_ i (leq0n _) ilt) /= ->.
by rewrite dict_get_first // mem_sort mem_nth.
Qed.

(** ** Counting lemmas *)

(** In a sorted string a character first occurs after exactly the smaller
    characters. *)
Lemma index_sorted_count (s : str) c :
  sorted le_char s -> c \in s ->
  index c s = count (fun x => code x < code c) s.
Proof.
elim: s => [|x s IH] //= px; rewrite in_cons eq_sym.
have all_x := order_path_min le_char_trans px.
case: eqP => [<- _|/eqP ne /= cs].
  rewrite ltnn /= (@eq_in_count _ _ pred0) ?count_pred0 // => y ys /=.
  by apply/negbTE; rewrite -leqNgt; exact: (allP all_x).
have : le_char x c by exact: (allP all_x).
rewrite /le_char leq_eqVlt code_eq (negbTE ne) /= => ->.
by rewrite add1n (IH (path_sorted px) cs).
Qed.

Lemma count_split (A : eqType) (P Q R : pred A) (s : seq A) :
  {in s, forall x, P x = Q x || R x} -> (forall x, ~~ (Q x && R x)) ->
  count P s = count Q s + count R s.
Proof.
move=> PQR dis; elim: s PQR => [|x s IH] //= PQR.
have {}IH : count P s = count Q s + count R s.
  by apply: IH => y ys; apply: PQR; rewrite in_cons ys orbT.
rewrite IH PQR ?mem_head // addnACA; congr (_ + _).
by have := dis x; case: (Q x); case: (R x).
Qed.

Lemma count_take_index (A : eqType) (a : pred A) (s : seq A) i :
  uniq s ->
  count a (take i s) = count (fun r => a r && (index r s < i)) s.
Proof.
elim: s i => [|x s IH] i; first by case: i.
case: i => [|i] /andP[xs us].
  rewrite take0 [RHS](@eq_count _ _ pred0) ?count_pred0 // => r /=.
  by rewrite ltn0 andbF.
rewrite /= eqxx /= andbT IH //; congr (_ + _).
apply: eq_in_count => r rs /=.
by case: eqP => [e|//]; rewrite -e (negbTE xs) in rs.
Qed.

(** In the sorted array of positions, a position comes after exactly the
    positions whose suffixes are smaller. *)
Lemma index_suffix_sorted (s : str) (sa : seq nat) q :
  sorted (suffix_le s) sa -> uniq sa -> {subset sa <= gtn (size s)} ->
  q \in sa -> index q sa = count (fun p => suffix_lt s p q) sa.
Proof.
elim: sa => [|y sa IH] //= py /andP[ysa usa] sub.
have all_y := order_path_min (@suffix_le_trans s) py.
have sub' : {subset sa <= gtn (size s)}.
  by move=> z zs; apply: sub; rewrite in_cons zs orbT.
rewrite in_cons eq_sym /suffix_lt; case: eqP => [<- _|/eqP ne /= qs].
  rewrite andbF /= (@eq_in_count _ _ pred0) ?count_pred0 // => z zs /=.
  apply/negbTE/negP => /andP[zy nzy]; case/negP: nzy; apply/eqP.
  have zlt : z < size s by exact: sub'.
  have ylt : y < size s by apply: sub; exact: mem_head.
  by apply: (@suffix_le_anti s); rewrite ?inE // zy (allP all_y).
by rewrite (allP all_y _ qs) /= add1n (IH (path_sorted py)).
Qed.

(** ** Locating the sentinel *)

Lemma where_eq_nil c (a : str) : c \notin a -> where_eq c a = [::].
Proof.
move=> nc; apply/eqP/negPn; rewrite -has_filter; apply/hasPn => i.
rewrite mem_iota add0n leq0n /= => ilt.
by apply: contra nc => /eqP <-; rewrite mem_nth.
Qed.

(** The first position [np.where] reports is the first occurrence. *)
Lemma where_eq_head c (a : str) :
  c \in a -> exists rest, where_eq c a = index c a :: rest.
Proof.
move=> cin; rewrite /where_eq.
have klt : index c a < size a by rewrite index_mem.
rewrite -(subnKC (ltnW klt)) iotaD filter_cat add0n.
have -> : [seq i <- iota 0 (index c a) | nth nul a i == c] = [::].
  apply/eqP/negPn; rewrite -has_filter; apply/hasPn => i.
  rewrite mem_iota add0n leq0n /= => ilt.
  by have /= -> := before_find nul ilt.
rewrite -(subnSK klt) /= nth_index // eqxx.
by eexists.
Qed.

Lemma size_walk (bwt : str) (ltf : seq nat) n (st : nat * str) :
  size (iter n (walk_step bwt ltf) st).2 = n + size st.2.
Proof. by elim: n => [|n IH] //=; rewrite IH. Qed.

(** Without a sentinel the lookup [np.where(...)[0][0]] fails. *)
Lemma revert_no_sentinel (T : str) :
  sentinel \notin T -> revert_burrows_wheeler T = Raises IndexError.
Proof. by move=> nT; rewrite revert_burrows_wheelerE where_eq_nil. Qed.

(** Joining characters read from an array. *)
Lemma join_chars_id (cs : str) : nul \notin cs -> join_chars cs = cs.
Proof.
move=> n; apply/all_filterP/allP => c cin.
by apply: contraNneq n => <-.
Qed.

Lemma size_join_chars (cs : str) :
  size (join_chars cs) = size cs - count_mem nul cs.
Proof.
rewrite /join_chars size_filter -(count_predC (pred1 nul) cs) addKn.
by apply: eq_count => c.
Qed.

Lemma size_all_but_last (cs : str) :
  size (take (size cs - 1) cs) = (size cs).-1.
Proof. by rewrite size_take subn1; case: (size cs) => //= n; rewrite ltnSn. Qed.

(** ** The last-to-first map of a transform string *)

Lemma predc_lt m r : r < m -> predc m r < m.
Proof. by case: r => [|r] //=; [case: m | move/ltnW]. Qed.

Lemma perm_predc n :
  perm_eq [seq predc n.+1 r | r <- iota 0 n.+1] (iota 0 n.+1).
Proof.
have e : [seq predc n.+1 r | r <- iota 1 n] = iota 0 n.
  by rewrite (iotaDl 1 0 n) -map_comp -[RHS]map_id; apply: eq_map.
have -> : [seq predc n.+1 r | r <- iota 0 n.+1] = n :: iota 0 n.
  by rewrite /= e.
by rewrite iota_last add0n -cat1s perm_catC.
Qed.

Section LastToFirst.

Variable S : str.
Hypothesis nS : sentinel \notin S.
Variable SA : seq nat.

Let T := S ++ [:: sentinel].
Let m := (size S).+1.

Hypothesis permSA : perm_eq SA (iota 0 m).
Hypothesis srtSA : sorted (suffix_le T) SA.

(** The transform string read off [SA]. *)
Let L := [seq nth nul T (predc m i) | i <- SA].

Let sizeT : size T = m.
Proof. by rewrite size_cat addn1. Qed.

Let size_SA : size SA = m.
Proof. by rewrite (perm_size permSA) size_iota. Qed.

Let uniq_SA : uniq SA.
Proof. by rewrite (perm_uniq permSA) iota_uniq. Qed.

Let mem_SA i : (i \in SA) = (i < m).
Proof. by rewrite (perm_mem permSA) mem_iota add0n. Qed.

Let sub_SA : {subset SA <= gtn (size T)}.
Proof. by move=> i; rewrite mem_SA sizeT. Qed.

Let nth_SA_lt i : i < m -> nth 0 SA i < m.
Proof. by move=> ilt; rewrite -mem_SA mem_nth // size_SA. Qed.

Lemma nth_T_sentinel i :
  i < m -> (nth nul T i == sentinel) = (i == size S).
Proof.
rewrite ltnS leq_eqVlt => /orP[/eqP ->|ilt].
  by rewrite nth_sentinel_last !eqxx.
rewrite nth_cat ilt (ltn_eqF ilt); apply/negbTE.
by apply: contra nS => /eqP <-; rewrite mem_nth.
Qed.

Lemma predc_last r : r < m -> (predc m r == size S) = (r == 0).
Proof. by case: r => [|r] /=; rewrite ?eqxx // ltnS => /ltn_eqF. Qed.

Lemma perm_L : perm_eq L T.
Proof.
rewrite -[X in perm_eq _ X](mkseq_nth nul) sizeT /L (map_comp (nth nul T)).
apply: perm_map; apply: perm_trans (perm_predc (size S)).
exact: perm_map.
Qed.

Lemma size_L : size L = m.
Proof. by rewrite size_map. Qed.

Lemma nth_L i : i < m -> nth nul L i = nth nul T (predc m (nth 0 SA i)).
Proof. by move=> ilt; rewrite (nth_map 0) ?size_SA. Qed.

(** A position sits in [SA] after the positions of the smaller suffixes. *)
Lemma index_SA q :
  q < m -> index q SA = count (fun p => suffix_lt T p q) (iota 0 m).
Proof.
move=> qlt; rewrite (@index_suffix_sorted T) ?mem_SA //.
by move/permP: permSA => ->.
Qed.

Lemma index_lt_suffix r a :
  r < m -> a < m -> (index r SA < index a SA) = suffix_lt T r a.
Proof.
rewrite -!mem_SA => rs as_.
have tr : transitive (suffix_le T) by exact: suffix_le_trans.
have rf : reflexive (suffix_le T) by move=> x; exact: lex_le_refl.
apply/idP/andP => [lt|[le ne]].
  split; first exact: (sorted_ltn_index tr srtSA).
  by apply: contraTneq lt => ->; rewrite ltnn.
rewrite ltnNge; apply: contra ne => le'.
have le2 : suffix_le T a r by exact: (sorted_leq_index tr rf srtSA).
apply/eqP; apply: (@suffix_le_anti T); rewrite ?inE ?le ?le2 //; exact: sub_SA.
Qed.

(** Comparing two suffixes is comparing their first characters, then the
    suffixes that follow. *)
Lemma suffix_ltS p q :
  p < m -> q < m ->
  suffix_lt T p q
  = (code (nth nul T p) < code (nth nul T q))
    || ((nth nul T p == nth nul T q) && suffix_lt T p.+1 q.+1).
Proof.
rewrite -sizeT => plt qlt.
rewrite /suffix_lt /suffix_le (drop_nth nul plt) (drop_nth nul qlt) /= eqSS.
rewrite -code_eq; case: ltngtP => //= lt.
by apply/eqP => e; rewrite e ltnn in lt.
Qed.

Lemma succ_predc r a :
  r < m -> a < m -> nth nul T (predc m r) = nth nul T (predc m a) ->
  suffix_lt T (predc m r).+1 (predc m a).+1 = suffix_lt T r a.
Proof.
case: r a => [|r] [|a] //= rlt alt e.
- by rewrite /suffix_lt !eqxx !andbF.
- have := nth_T_sentinel (ltnW alt); rewrite -e nth_sentinel_last eqxx.
  by move/esym/eqP => ea; rewrite ea /m ltnn in alt.
- have := nth_T_sentinel (ltnW rlt); rewrite e nth_sentinel_last eqxx.
  by move/esym/eqP => er; rewrite er /m ltnn in rlt.
Qed.

(** The map computed from the transform string sends the position of a
    suffix in [SA] to the position of the suffix that starts one character
    earlier. *)
Lemma last_to_first_spec i :
  i < m -> nth 0 (map_last_to_first L) i = index (predc m (nth 0 SA i)) SA.
Proof.
move=> ilt.
have alt : nth 0 SA i < m by exact: nth_SA_lt.
have qlt : predc m (nth 0 SA i) < m by exact: predc_lt.
have Li := nth_L ilt.
have ei : i = index (nth 0 SA i) SA by rewrite index_uniq ?size_SA.
set a := nth 0 SA i in alt qlt Li ei *.
set q := predc m a in qlt Li *.
set c := nth nul T q in Li *.
rewrite nth_map_last_to_first ?size_L // Li index_SA //.
have -> : count (fun p => suffix_lt T p q) (iota 0 m)
          = count (fun p => code (nth nul T p) < code c) (iota 0 m)
            + count (fun p => (nth nul T p == c) && suffix_lt T p.+1 q.+1)
                    (iota 0 m).
  apply: count_split => p.
    by rewrite mem_iota add0n leq0n /= => plt; rewrite suffix_ltS.
  by rewrite /= -code_eq; case: ltngtP.
congr (_ + _).
- have cin : c \in sort le_char L by rewrite mem_sort -Li mem_nth ?size_L.
  rewrite (index_sorted_count (sort_sorted le_char_total L) cin).
  rewrite count_sort; move/permP: perm_L => ->.
  by rewrite -[in LHS](mkseq_nth nul T) /mkseq count_map sizeT.
- rewrite /L -map_take count_map count_take_index //.
  move/permP: permSA => ->.
  move/permP: (perm_predc (size S)) => E; rewrite -[RHS]E count_map.
  apply: eq_in_count => r; rewrite mem_iota add0n leq0n /= => rlt.
  rewrite [in LHS]ei index_lt_suffix //.
  case e: (nth nul T (predc m r) == c) => //=.
  by rewrite -(succ_predc rlt alt) //; exact/eqP.
Qed.

(** The sentinel sits in the transform string where [SA] holds offset 0. *)
Lemma index_sentinel_L : index sentinel L = index 0 SA.
Proof.
have in0 : 0 \in SA by rewrite mem_SA.
have lt0 : index 0 SA < m by rewrite -size_SA index_mem.
have sin : sentinel \in L.
  apply/(nthP nul); exists (index 0 SA); first by rewrite size_L.
  by rewrite nth_L // nth_index //= nth_sentinel_last.
have jlt : index sentinel L < m by rewrite -size_L index_mem.
have := nth_index nul sin; rewrite nth_L // => /eqP.
rewrite nth_T_sentinel ?predc_lt ?nth_SA_lt // predc_last ?nth_SA_lt //.
by move/eqP => e; rewrite -e index_uniq ?size_SA.
Qed.

(** [t] steps of the reconstruction loop: the walk stands where [SA] holds
    offset [m - t], and has collected the last [t] characters of [T]. *)
Lemma walk_iter t :
  t <= m ->
  iter t (walk_step L (map_last_to_first L)) (index 0 SA, [::])
  = (index (if t is 0 then 0 else m - t) SA, drop (m - t) T).
Proof.
elim: t => [|t IH] tm; first by rewrite /= subn0 -sizeT drop_size.
rewrite iterS IH ?(ltnW tm) // /walk_step /=.
set a := if t is 0 then 0 else m - t.
have alt : a < m by rewrite /a; case: (t) tm => // t' _; rewrite /m subSS ltnS leq_subr.
have ain : a \in SA by rewrite mem_SA.
have idx : index a SA < m by rewrite -size_SA index_mem.
have pa : predc m a = m - t.+1.
  rewrite /a; case: (t) tm => [|t'] tm'; first by rewrite /= subn1.
  have : 0 < m - t'.+1 by rewrite subn_gt0.
  by rewrite [m - t'.+2]subnS; case: (m - t'.+1).
rewrite last_to_first_spec // nth_L // nth_index // pa.
have lt : m - t.+1 < size T by rewrite sizeT /m subSS ltnS leq_subr.
by rewrite [in RHS](drop_nth nul lt) subnSK.
Qed.

Hypothesis nulS : nul \notin S.

Lemma revert_L : revert_burrows_wheeler L = Returns S.
Proof.
rewrite revert_burrows_wheelerE.
have sin : sentinel \in L.
  by rewrite (perm_mem perm_L) mem_cat mem_head orbT.
have [rest ->] := where_eq_head sin.
rewrite index_sentinel_L size_L walk_iter // subnn drop0 /=.
have nulT : nul \notin T by rewrite /T mem_cat negb_or nulS.
by rewrite (join_chars_id nulT) /T size_cat addn1 subn1 /= take_size_cat.
Qed.

End LastToFirst.

(** On an input without NUL character the join of the encoder drops
    nothing. *)
Lemma burrows_wheeler_conversion_plain (S : str) :
  nul \notin S ->
  burrows_wheeler_conversion S
  = Returns [seq nth nul (S ++ [:: sentinel]) (predc (size S).+1 i)
            | i <- build_suffix_array (S ++ [:: sentinel])].
Proof.
move=> nS; rewrite burrows_wheeler_conversionE join_chars_id //.
have p : perm_eq (build_suffix_array (S ++ [:: sentinel]))
                 (iota 0 (size S).+1).
  by have := perm_build_suffix_array (S ++ [:: sentinel]);
     rewrite size_cat addn1.
by rewrite (perm_mem (perm_L p)) mem_cat negb_or nS.
Qed.

(** Decoding what the encoder returns gives the input back. *)
Lemma revert_conversion (S : str) :
  sentinel \notin S -> nul \notin S ->
  bind (burrows_wheeler_conversion S) revert_burrows_wheeler = Returns S.
Proof.
move=> nS nulS; rewrite burrows_wheeler_conversion_plain //=.
apply: revert_L => //.
  by rewrite -[(size S).+1]addn1 -(size_cat S [:: sentinel]) perm_build_suffix_array.
apply: build_suffix_array_sorted; first exact: sentinel_last_unique.
by rewrite size_cat addn1.
Qed.

(** ** Blocks of equal characters in a sorted string *)

Lemma index_sorted_min (s : str) c :
  sorted le_char s -> all (le_char c) s -> c \in s -> index c s = 0.
Proof.
case: s => [|y s] //= py /andP[cy _]; rewrite in_cons => cin.
have all_y := order_path_min le_char_trans py.
case: eqP => // ne.
case/orP: cin => [/eqP e|cs]; first by case: ne.
by case: ne; apply: le_char_anti; rewrite cy andbT (allP all_y).
Qed.

(** The [t]-th occurrence of [c] in a sorted string sits [t] places after
    the first one. *)
Lemma sorted_block (s : str) c t :
  sorted le_char s -> t < count_mem c s ->
  nth nul s (index c s + t) = c
  /\ count_mem c (take (index c s + t) s) = t.
Proof.
elim: s t => [|x s IH] t //= px.
have all_x := order_path_min le_char_trans px.
have srt := path_sorted px.
case: (x =P c) => [e|/eqP ne]; last first.
  by rewrite add0n addSn /= (negbTE ne) add0n => /(IH _ srt) [-> ->].
rewrite add0n add1n; case: t => [|t]; first by rewrite take0.
rewrite ltnS /= => tlt; rewrite e eqxx add1n.
have cin : c \in s by rewrite -has_pred1 has_count (leq_ltn_trans _ tlt).
have i0 : index c s = 0.
  by apply: index_sorted_min => //; rewrite -e.
by have [] := IH t srt tlt; rewrite i0 add0n => -> ->.
Qed.

(** ** Independence of the sorting routine

    Any two routines that keep numpy's promises return the same arrays, so
    the program computes the same results whichever of them it runs on. *)

Section StableUnique.

Variables (K : Type) (le : rel K) (d : K).
Hypothesis le_total : total le.
Hypothesis le_trans : transitive le.

Lemma stable_lt_irr a : irreflexive (stable_lt le d a).
Proof. by move=> p; rewrite /stable_lt /= ltnn; case: (le _ _). Qed.

Lemma stable_lt_trans a : transitive (stable_lt le d a).
Proof.
move=> q p r; rewrite /stable_lt /= => /andP[pq /implyP qp] /andP[qr /implyP rq].
rewrite (le_trans pq qr) /=; apply/implyP => rp.
apply: ltn_trans (qp _) (rq _).
  exact: le_trans qr rp.
exact: le_trans rp pq.
Qed.

Lemma argsort_is_stable : stable_argsort le d (argsort le d).
Proof.
by move=> a; split; [exact: perm_argsort | exact: argsort_stable].
Qed.

Lemma stable_argsort_unique f :
  stable_argsort le d f -> forall a, f a = argsort le d a.
Proof.
move=> Hf a; have [pf sf] := Hf a.
apply: (irr_sorted_eq (@stable_lt_trans a) (@stable_lt_irr a)) => //.
  exact: argsort_stable.
by move=> p; rewrite (perm_mem pf) (perm_mem (perm_argsort le d a)).
Qed.

Lemma argsort_by_index_is_stable : stable_argsort le d (argsort_by_index le d).
Proof.
move=> a; rewrite /argsort_by_index.
set le' := [rel p q | _ && _].
have tot' : total le'.
  move=> p q; rewrite /le' /=.
  have := le_total (nth d a p) (nth d a q); have := leq_total p q.
  by case: (le _ _); case: (le _ _); case: (p <= q); case: (q <= p).
have perm : perm_eq (sort le' (rev (iota 0 (size a)))) (iota 0 (size a)).
  by rewrite perm_sort perm_rev.
split=> //.
have uq : uniq (sort le' (rev (iota 0 (size a)))).
  by rewrite (perm_uniq perm) iota_uniq.
have := sort_sorted tot' (rev (iota 0 (size a))).
case: (sort _ _) uq => [|x s] //=.
elim: s x => [|y s IH] x //= /andP[]; rewrite inE negb_or => /andP[ne _].
move=> us /andP[/andP[xy /implyP imp] py].
rewrite (IH y us py) andbT /stable_lt /= xy /=; apply/implyP => /imp.
by rewrite leq_eqVlt (negbTE ne).
Qed.

End StableUnique.

Lemma sort_sorts_chars : sorts_chars (sort le_char).
Proof.
by move=> a; split; [rewrite perm_sort | exact: (sort_sorted le_char_total)].
Qed.

Lemma sort_reversed_sorts_chars : sorts_chars sort_reversed.
Proof.
move=> a; rewrite /sort_reversed; split; first by rewrite perm_sort perm_rev.
exact: (sort_sorted le_char_total).
Qed.

Lemma sorts_chars_unique f :
  sorts_chars f -> forall a, f a = sort le_char a.
Proof.
move=> Hf a; have [pf sf] := Hf a.
apply: (sorted_eq le_char_trans le_char_anti) => //.
  exact: (sort_sorted le_char_total).
by rewrite perm_sym perm_sort perm_sym.
Qed.

Lemma doubling_loop_withS f fuel n st :
  doubling_loop_with f fuel.+1 n st
  = if st_k st < n then
      if nth 0 (st_ranks (doubling_round_with f n st))
               (last 0 (st_sa (doubling_round_with f n st))) == n - 1
      then st_sa (doubling_round_with f n st)
      else doubling_loop_with f fuel n (doubling_round_with f n st)
    else st_sa st.
Proof. by []. Qed.

Section Extensionality.

Variables (argsort_char argsort_char' : str -> seq nat).
Variables (argsort_pair argsort_pair' : seq (nat * nat) -> seq nat).
Variables (sort_char sort_char' : str -> str).
Hypothesis eq_char : argsort_char =1 argsort_char'.
Hypothesis eq_pair : argsort_pair =1 argsort_pair'.
Hypothesis eq_sort : sort_char =1 sort_char'.

Lemma eq_calculate_ranks sa k ranks :
  calculate_ranks_with argsort_pair sa k ranks
  = calculate_ranks_with argsort_pair' sa k ranks.
Proof. by rewrite /calculate_ranks_with eq_pair. Qed.

Lemma eq_doubling_round n st :
  doubling_round_with argsort_pair n st
  = doubling_round_with argsort_pair' n st.
Proof. by rewrite /doubling_round_with eq_pair eq_calculate_ranks. Qed.

Lemma eq_doubling_loop fuel n st :
  doubling_loop_with argsort_pair fuel n st
  = doubling_loop_with argsort_pair' fuel n st.
Proof.
elim: fuel st => [|fuel IH] st //.
by rewrite !doubling_loop_withS eq_doubling_round IH.
Qed.

Lemma eq_build_suffix_array s :
  build_suffix_array_with argsort_char argsort_pair s
  = build_suffix_array_with argsort_char' argsort_pair' s.
Proof.
by rewrite /build_suffix_array_with /initial_state_with eq_char
           eq_doubling_loop.
Qed.

Lemma eq_burrows_wheeler_conversion s :
  burrows_wheeler_conversion_with argsort_char argsort_pair s
  = burrows_wheeler_conversion_with argsort_char' argsort_pair' s.
Proof. by rewrite /burrows_wheeler_conversion_with eq_build_suffix_array. Qed.

Lemma eq_map_last_to_first bwt :
  map_last_to_first_with sort_char bwt = map_last_to_first_with sort_char' bwt.
Proof. by rewrite /map_last_to_first_with eq_sort. Qed.

Lemma eq_revert_burrows_wheeler bwt :
  revert_burrows_wheeler_with sort_char bwt
  = revert_burrows_wheeler_with sort_char' bwt.
Proof. by rewrite /revert_burrows_wheeler_with eq_map_last_to_first. Qed.

End Extensionality.

(** ** The decoder reads inside its arrays *)

Lemma index_count_le (s : str) c : index c s + count_mem c s <= size s.
Proof.
elim: s => [|x s IH] //=; case: eqP => _ /=.
  by rewrite add0n add1n ltnS count_size.
by rewrite add0n addSn ltnS.
Qed.

(** Every entry of the last-to-first map is a position of the string. *)
Lemma map_last_to_first_lt (T : str) i :
  i < size T -> nth 0 (map_last_to_first T) i < size T.
Proof.
move=> ilt; rewrite nth_map_last_to_first //.
set c := nth nul T i.
have lt : count_mem c (take i T) < count_mem c (sort le_char T).
  rewrite count_sort -[X in _ < count_mem c X](cat_take_drop i) count_cat.
  by rewrite (drop_nth nul ilt) /= eqxx -addn1 leq_add2l addnC ltn_addl.
rewrite -(size_sort le_char T).
apply: leq_trans (index_count_le (sort le_char T) c).
by rewrite ltn_add2l.
Qed.

(** The reconstruction loop, started inside the string, stays inside it. *)
Lemma walk_in_range (T : str) n idx dq :
  idx < size T ->
  (iter n (walk_step T (map_last_to_first T)) (idx, dq)).1 < size T.
Proof.
move=> ilt; elim: n => [|n IH] //=.
exact: map_last_to_first_lt.
Qed.

(** With at least one sentinel the decoder returns, whatever their number:
    a string shorter than its input, by one symbol when the input holds no
    NUL character. *)
Lemma walk_chars (T : str) n idx dq :
  idx < size T -> all (fun c => c \in T) dq ->
  all (fun c => c \in T)
      (iter n (walk_step T (map_last_to_first T)) (idx, dq)).2.
Proof.
move=> ilt adq; elim: n => [|n IH] //=.
by rewrite IH andbT mem_nth // walk_in_range.
Qed.

Lemma revert_some_sentinel (T : str) :
  sentinel \in T ->
  exists s, [/\ revert_burrows_wheeler T = Returns s,
                size s <= (size T).-1
              & nul \notin T -> size s = (size T).-1].
Proof.
move=> sin; rewrite revert_burrows_wheelerE.
have [rest ->] := where_eq_head sin.
set w := (iter _ _ _).2.
have szw : size w = size T by rewrite /w size_walk /= addn0.
eexists; split; first by [].
  rewrite size_all_but_last size_join_chars szw.
  by rewrite -!subn1 leq_sub2r // leq_subr.
move=> nT; rewrite join_chars_id ?size_all_but_last ?szw //.
have /allP al : all (fun c => c \in T) w.
  by apply: walk_chars => //; rewrite index_mem.
by apply/negP => /al; apply/negP.
Qed.

(** ** Rotations

    Whatever the input, the loop leaves the positions in the order of the
    rotations that start there, equal rotations in position order. *)

Section Rotations.

Variable s : str.
Hypothesis s_gt0 : 0 < size s.

Lemma pref_rot i : i <= size s -> pref s (size s) i = rot i s.
Proof.
move=> ile; apply: (@eq_from_nth _ nul); first by rewrite size_pref size_rot.
move=> e; rewrite size_pref => elt.
rewrite /pref (nth_map 0) ?size_iota // nth_iota // add0n /cy.
rewrite /rot nth_cat size_drop; case: ltnP => [lt|ge].
  by rewrite nth_drop modn_small // -ltn_subRL.
have lt2 : e - (size s - i) < i by rewrite ltn_subLR // subnK.
rewrite (nth_take _ lt2).
have -> : i + e = (e - (size s - i)) + size s.
  by rewrite -{2}(subnK ile) addnA (subnK ge) addnC.
by rewrite modnDr modn_small // (leq_ltn_trans (leq_subr _ _)).
Qed.

Lemma pref_period i j :
  pref s (size s) i = pref s (size s) j ->
  forall k, pref s k i = pref s k j.
Proof.
move=> E k; elim/ltn_ind: k i j E => k IH i j E.
case: (leqP k (size s)) => [kn|nk].
  by apply: (@pref_eq_take s k (size s - k)); rewrite subnKC.
have -> : k = size s + (k - size s) by rewrite subnKC // ltnW.
rewrite !prefD E; congr (_ ++ _).
rewrite -(pref_mod s _ (i + _)) -(pref_mod s _ (j + _)) !modnDr !pref_mod.
by apply: IH => //; rewrite ltn_subrL s_gt0 (leq_trans _ nk).
Qed.

Lemma lex_pref_ge k i j :
  size s <= k ->
  lex_le (pref s k i) (pref s k j)
  = lex_le (pref s (size s) i) (pref s (size s) j).
Proof.
move=> nk; rewrite -(subnKC nk) !prefD lex_le_cat ?size_pref //.
case: eqP => // E; rewrite E lex_le_refl.
rewrite -(pref_mod s _ (i + _)) -(pref_mod s _ (j + _)) !modnDr !pref_mod.
by rewrite (pref_period E) lex_le_refl.
Qed.

Lemma lt_pref_ge k : size s <= k -> lt_pref s k =2 lt_pref s (size s).
Proof. by move=> nk i j; rewrite /lt_pref !lex_pref_ge. Qed.

Lemma lt_pref_mono k k' i j :
  pref s k i != pref s k j -> lt_pref s (k + k') i j = lt_pref s k i j.
Proof.
move=> ne; rewrite /lt_pref !prefD !lex_le_cat ?size_pref //.
by rewrite (negbTE ne) eq_sym (negbTE ne).
Qed.

(** On leaving the loop by either exit, the positions are in rotation
    order. *)
Lemma exit_sorted_rot st :
  round_inv s st ->
  size s <= st_k st
  \/ (forall a b, a < size s -> b < size s ->
        pref s (st_k st) a = pref s (st_k st) b -> a = b) ->
  sorted (lt_pref s (size s)) (st_sa st).
Proof.
case=> perm srt _ _ exit.
case: (leqP (size s) (st_k st)) => [nk|kn].
  by rewrite -(eq_sorted (lt_pref_ge nk)).
case: exit => [nk|inj]; first by rewrite leqNgt kn in nk.
apply: (@sub_in_sorted _ (gtn (size s))) srt; last first.
  by apply/allP => p; rewrite (perm_mem perm) mem_iota add0n.
move=> i j; rewrite !inE => ilt jlt lt.
have ne : pref s (st_k st) i != pref s (st_k st) j.
  apply/eqP => /(inj _ _ ilt jlt) eij.
  by rewrite eij lt_pref_irr in lt.
by rewrite -(subnKC (ltnW kn)) lt_pref_mono.
Qed.

Lemma rot_sorted_stable sa :
  perm_eq sa (iota 0 (size s)) ->
  sorted (lt_pref s (size s)) sa ->
  sorted (stable_lt lex_le [::] (rotations s)) sa.
Proof.
move=> perm; apply: (@sub_in_sorted _ (gtn (size s))); last first.
  by apply/allP => p; rewrite (perm_mem perm) mem_iota add0n.
move=> i j; rewrite !inE => ilt jlt.
rewrite /stable_lt /lt_pref /= /rotations !(nth_map 0) ?size_iota //.
by rewrite !nth_iota // !add0n !pref_rot // ltnW.
Qed.

Lemma build_suffix_array_rot :
  sorted (lt_pref s (size s)) (build_suffix_array s).
Proof.
rewrite build_suffix_arrayE.
have [|st [inv -> exit]] :=
  @doubling_loop_inv s s_gt0 (size s) (initial_state s) (init_inv s) isT.
  by rewrite /= add1n.
exact: exit_sorted_rot.
Qed.

Lemma doubling_loop_no_break_inv fuel st :
  round_inv s st -> 0 < st_k st -> size s <= st_k st + fuel ->
  exists st', [/\ round_inv s st',
                  doubling_loop_no_break fuel (size s) st = st_sa st'
                & size s <= st_k st'].
Proof.
elim: fuel st => [|fuel IH] st inv kpos.
  by rewrite addn0 => nk; exists st; split.
move=> nk /=; case: ltnP => [kn|nk']; last by exists st; split.
have [inv' _] := round_step s_gt0 inv.
apply: IH => //=; first by rewrite muln_gt0 kpos.
by rewrite muln2 -addnn -addnA (leq_trans nk) // leq_add2l -add1n leq_add2r.
Qed.

Lemma rot_sorted_unique sa sa' :
  perm_eq sa (iota 0 (size s)) -> perm_eq sa' (iota 0 (size s)) ->
  sorted (lt_pref s (size s)) sa -> sorted (lt_pref s (size s)) sa' ->
  sa = sa'.
Proof.
move=> p p' srt srt'.
apply: (irr_sorted_eq (@lt_pref_trans s (size s))
                      (@lt_pref_irr s (size s))) => //.
by move=> x; rewrite (perm_mem p) (perm_mem p').
Qed.

End Rotations.

(** ** A unique last character *)

Lemma count_last_unique (s : str) :
  count_mem (last nul s) s = 1 ->
  forall i, i < size s -> nth nul s i = nth nul s (size s).-1 ->
    i = (size s).-1.
Proof.
case/lastP: s => [|s c] //.
rewrite last_rcons size_rcons /= nth_rcons ltnn eqxx.
rewrite -cats1 count_cat /= eqxx addn0 addn1 => -[] /eqP.
rewrite -leqn0 leqNgt -has_count has_pred1 cats1 => nS i.
rewrite ltnS leq_eqVlt => /orP[/eqP //|ilt]; rewrite nth_rcons ilt => e.
by case/negP: nS; rewrite -e mem_nth.
Qed.

(** ** The last-to-first map is a permutation *)

Lemma count_take_lt (c : ascii) (T : str) i i' :
  i < i' -> i < size T -> nth nul T i = c ->
  count_mem c (take i T) < count_mem c (take i' T).
Proof.
move=> lt ilt e.
rewrite -(subnKC (ltnW lt)) takeD count_cat -[X in X < _]addn0 ltn_add2l.
have : 0 < i' - i by rewrite subn_gt0.
by rewrite (drop_nth nul ilt) e; case: (i' - i) => // d _ /=; rewrite eqxx.
Qed.

Lemma last_to_first_char (T : str) i :
  i < size T ->
  nth nul (sort le_char T) (nth 0 (map_last_to_first T) i) = nth nul T i
  /\ count_mem (nth nul T i) (take (nth 0 (map_last_to_first T) i)
                                   (sort le_char T))
     = count_mem (nth nul T i) (take i T).
Proof.
move=> ilt; rewrite nth_map_last_to_first //.
apply: sorted_block; first exact: (sort_sorted le_char_total).
have pF : perm_eq (sort le_char T) T by rewrite perm_sort.
rewrite (permP pF).
by have := @count_take_lt _ T i (size T) ilt ilt (erefl _); rewrite take_size.
Qed.

Lemma last_to_first_inj (T : str) :
  {in gtn (size T) &, injective (nth 0 (map_last_to_first T))}.
Proof.
have H i j : i < j -> j < size T ->
    nth 0 (map_last_to_first T) i != nth 0 (map_last_to_first T) j.
  move=> lt jlt; have ilt := ltn_trans lt jlt.
  have [ci ni] := last_to_first_char ilt.
  have [cj nj] := last_to_first_char jlt.
  apply/eqP => e; rewrite e cj in ci; rewrite e -ci nj in ni.
  by have := count_take_lt lt ilt (esym ci); rewrite ni ltnn.
move=> i j; rewrite !inE => ilt jlt e.
case: (ltngtP i j) => // lt.
  by have := H _ _ lt jlt; rewrite e eqxx.
by have := H _ _ lt ilt; rewrite e eqxx.
Qed.

Lemma perm_map_last_to_first (T : str) :
  perm_eq (map_last_to_first T) (iota 0 (size T)).
Proof.
have uq : uniq (map_last_to_first T).
  apply/(uniqP 0) => i j; rewrite !inE size_map_last_to_first => ilt jlt.
  exact: last_to_first_inj.
have sub : {subset map_last_to_first T <= iota 0 (size T)}.
  move=> x /(nthP 0) [i]; rewrite size_map_last_to_first => ilt <-.
  by rewrite mem_iota add0n /= map_last_to_first_lt.
apply: uniq_perm => //; first exact: iota_uniq.
have [] := uniq_min_size uq sub; last by [].
by rewrite size_iota size_map_last_to_first.
Qed.

(** ** The ranks returned by [calculate_ranks] *)

Lemma calculate_ranks_le sa k ranks :
  perm_eq sa (iota 0 (size ranks)) ->
  let r := calculate_ranks sa k ranks in
  size r = size ranks
  /\ forall i j, i < size ranks -> j < size ranks ->
       (nth 0 r i <= nth 0 r j)
       = le_pair (rank_pair ranks k (size ranks) i)
                 (rank_pair ranks k (size ranks) j).
Proof.
move=> perm; rewrite calculate_ranksE.
have sza : size sa = size ranks by rewrite (perm_size perm) size_iota.
set keyf := rank_pair ranks k (size ranks).
set keys := [seq keyf i | i <- sa].
set si := argsort le_pair (0, 0) keys.
set key := fun p => nth (0, 0) keys (nth 0 si p).
set pos := fun p => nth 0 sa (nth 0 si p).
rewrite /=.
have szk : size keys = size ranks by rewrite size_map.
have perm2 : perm_eq (gather 0 sa si) (iota 0 (size ranks)).
  by apply: perm_trans perm; apply: perm_gather; rewrite size_map.
have sorted2 : sorted (relpre keyf le_pair) (gather 0 sa si).
  by apply: (sorted_gather (0, 0) le_pair_total) => p q _ _ H _.
have pos_sa p : p < size ranks -> pos p = nth 0 (gather 0 sa si) p.
  by move=> pn; rewrite /gather (nth_map 0) // size_argsort szk.
have key_sa p : p < size ranks -> key p = keyf (nth 0 (gather 0 sa si) p).
  move=> pn; rewrite -pos_sa // /key /keys (nth_map 0) // sza -szk.
  by apply: argsort_lt; rewrite szk.
split; first exact: (size_ranks_of_sorted _ perm2).
move=> i j ilt jlt.
exact: (ranks_of_sorted_leq le_pair_refl le_pair_anti le_pair_trans
          perm2 sorted2 pos_sa key_sa).
Qed.

(** ** The transform rearranges its input *)

Lemma perm_encode (s : str) :
  exists2 t, burrows_wheeler_conversion s = Returns t
           & perm_eq t ([seq c <- s | c != nul] ++ [:: sentinel]).
Proof.
rewrite burrows_wheeler_conversionE; eexists; first by [].
have -> : [seq c <- s | c != nul] ++ [:: sentinel]
          = join_chars (s ++ [:: sentinel]).
  by rewrite /join_chars filter_cat.
rewrite /join_chars perm_filter //.
apply: perm_L; have := perm_build_suffix_array (s ++ [:: sentinel]).
by rewrite size_cat addn1.
Qed.

(** ** Receiving and splitting a request *)

Lemma receive_flatten chunks raw :
  receive chunks raw
  = if newline \in flatten chunks
    then Some (raw ++ take (index newline (flatten chunks)) (flatten chunks))
    else None.
Proof.
elim: chunks raw => [|data chunks IH] raw //=.
rewrite mem_cat index_cat take_cat; case: ifP => [din|dnin] /=.
  by rewrite index_mem din.
rewrite IH; case: ifP => // _.
by rewrite ltnNge leq_addr /= addKn catA.
Qed.

Lemma receive_line (line rest : str) chunks :
  newline \notin line -> flatten chunks = line ++ newline :: rest ->
  receive chunks [::] = Some line.
Proof.
move=> nl e; rewrite receive_flatten e mem_cat inE eqxx orbT.
rewrite index_cat (negbTE nl) /= ?eqxx addn0 take_cat ltnn subnn take0.
by rewrite cats0.
Qed.

Lemma split_from_plain cur (s : str) :
  colon \notin s -> split_from (py ": ") 0 cur s = [:: catrev cur s].
Proof.
elim: s cur => [|c s IH] cur //=.
rewrite inE negb_or /colon => /andP[/negbTE ne ns].
by rewrite ne /= IH.
Qed.

Lemma split_from_sep cur (s : str) :
  split_from (py ": ") 0 cur (py ": " ++ s)
  = rev cur :: split_from (py ": ") 0 [::] s.
Proof. by rewrite /= prefix0s. Qed.

Lemma split_from_request cur (op s : str) :
  colon \notin op -> colon \notin s ->
  split_from (py ": ") 0 cur (op ++ py ": " ++ s) = [:: catrev cur op; s].
Proof.
move=> nop ns; elim: op cur nop => [|c op IH] cur.
  by move=> _; rewrite cat0s split_from_sep split_from_plain.
rewrite inE negb_or /colon => /andP[/negbTE ne nop].
by rewrite /= ne /=; apply: IH.
Qed.

Lemma split_request (op s : str) :
  colon \notin op -> colon \notin s ->
  split (py ": ") (op ++ py ": " ++ s) = [:: op; s].
Proof. by move=> nop ns; rewrite /split split_from_request. Qed.

Lemma handle_request_line (line rest : str) chunks :
  newline \notin line -> flatten chunks = line ++ newline :: rest ->
  handle_request chunks
  = if split (py ": ") line is [:: operation; seq_to_convert] then
      match (if operation == py "BWT"
             then burrows_wheeler_conversion seq_to_convert
             else revert_burrows_wheeler seq_to_convert) with
      | Returns result => Sent (result ++ [:: newline])
      | Raises e => Logged (ConversionError e)
      end
    else Logged UnpackError.
Proof. by move=> nl e; rewrite /handle_request (receive_line nl e). Qed.

Lemma handle_request_request (op s : str) chunks :
  colon \notin op -> colon \notin s ->
  newline \notin op -> newline \notin s ->
  flatten chunks = request op s ->
  handle_request chunks
  = match (if op == py "BWT" then burrows_wheeler_conversion s
           else revert_burrows_wheeler s) with
    | Returns result => Sent (result ++ [:: newline])
    | Raises e => Logged (ConversionError e)
    end.
Proof.
move=> cop cs nop ns e.
have nl : newline \notin op ++ py ": " ++ s.
  by rewrite !mem_cat !negb_or nop ns.
have e' : flatten chunks = (op ++ py ": " ++ s) ++ [:: newline].
  by rewrite e /request -!catA.
by rewrite (handle_request_line nl e') split_request.
Qed.

(** ** What validation lets through *)

Lemma bases_plain (s : str) :
  all (fun base => base \in bases) s ->
  [/\ colon \notin s, newline \notin s, nul \notin s & seven_bit s].
Proof.
move=> /allP H; split.
- by apply/negP => /H.
- by apply/negP => /H.
- by apply/negP => /H.
- have b7 : all (fun c => code c < 128) bases by [].
  by apply/allP => c /H /(allP b7).
Qed.

Lemma validation_client_accepted gethostbyname open_read host port file
    operation h p header seq :
  validation_client gethostbyname open_read host port file operation
  = Accepted (h, p, header, seq) ->
  exists2 text, open_read file = Text text
  & [/\ seq = remove_newlines (upper (strip (read_rest text))),
        seq != [::],
        all (fun base => base \in bases) seq,
        operation = py "BWT" -> sentinel \notin seq
      & operation = py "REVERT" -> count_mem sentinel seq = 1].
Proof.
rewrite /validation_client; case: (valid_port port) => //=.
case: (gethostbyname host) => //; case: (_ || _) => //=.
case: (open_read file) => // text; set sq := remove_newlines _.
case: (prefix _ _) => //=; case: ifP => // /negbT; rewrite -/(nilp sq) => ne.
case: ifP => // /negbT Hb; case: ifP => // /negbT Hr.
case: ifP => // /negbFE al [_ _ _ e]; exists text => //; rewrite -e.
split=> //.
- by apply: contra ne => /eqP ->.
- move=> eo; move: Hb; rewrite eo eqxx /= -leqNgt leqn0 => /eqP c0.
  by rewrite -has_pred1 has_count c0.
- by move=> eo; move: Hr; rewrite eo eqxx /= negbK => /eqP.
Qed.

(** ** The separator survives the reading of a file *)

Lemma mem_lstrip (c : ascii) (s : str) :
  ~~ isspace c -> (c \in lstrip s) = (c \in s).
Proof.
move=> nsp; elim: s => [|a s IH] //=; case: ifP => // sp.
rewrite IH inE; case: eqP => // e.
by rewrite e sp in nsp.
Qed.

Lemma mem_strip (c : ascii) (s : str) :
  ~~ isspace c -> (c \in strip s) = (c \in s).
Proof.
by move=> nsp; rewrite /strip /rstrip mem_rev mem_lstrip // mem_rev mem_lstrip.
Qed.

Lemma mem_read_rest (c : ascii) (header rest : str) :
  c \in rest -> c \in read_rest (header ++ newline :: rest).
Proof.
move=> cin; rewrite /read_rest index_cat; case hin: (newline \in header).
  rewrite drop_cat; case: ltnP => _; first by rewrite mem_cat inE cin !orbT.
  have -> : (index newline header).+1 - size header = 0.
    by apply/eqP; rewrite subn_eq0 index_mem.
  by rewrite drop0 inE cin orbT.
by rewrite /= ?eqxx addn0 drop_cat ltnNge leqnSn /= subSnn /= drop0.
Qed.

Lemma output_text_colon header operation seq :
  colon \in remove_newlines
              (upper (strip (read_rest (output_text header operation seq)))).
Proof.
rewrite mem_filter /=; apply/mapP; exists colon => //.
rewrite mem_strip //; apply: mem_read_rest.
by rewrite mem_cat.
Qed.

(** ** Rounds of the doubling loop *)

Lemma st_k_doubling_round n st : st_k (doubling_round n st) = st_k st * 2.
Proof. by []. Qed.

Lemma doubling_loop_countedE fuel n st c :
  (doubling_loop_counted fuel n st c).2 = doubling_loop fuel n st.
Proof.
elim: fuel st c => [|fuel IH] st c //=.
by case: ifP => // _; case: ifP => // _; rewrite IH.
Qed.

Lemma doubling_loop_counted_rounds fuel n st c :
  exists2 r, (r = 0) \/ (st_k st * 2 ^ r.-1 < n)
  & doubling_loop_counted fuel n st c
    = (c + r, st_sa (iter r (doubling_round n) st)).
Proof.
elim: fuel st c => [|fuel IH] st c /=.
  by exists 0; [left | rewrite addn0].
case: ifP => kn; last by exists 0; [left | rewrite addn0].
case: ifP => _.
  by exists 1; [right; rewrite expn0 muln1 | rewrite addn1].
have [r b ->] := IH (doubling_round n st) c.+1.
exists r.+1; last by rewrite iterSr addSnnS.
right; case: b => [->|]; first by rewrite expn0 muln1.
rewrite st_k_doubling_round /=; case: r => [|r] /=.
  by move=> _; rewrite expn0 muln1.
by rewrite expnS mulnA.
Qed.

Lemma doubling_loop_counted_fuel n st c fuel1 fuel2 :
  0 < st_k st -> n <= st_k st + fuel1 -> n <= st_k st + fuel2 ->
  doubling_loop_counted fuel1 n st c = doubling_loop_counted fuel2 n st c.
Proof.
elim: fuel1 fuel2 st c => [|f1 IH] [|f2] st c kpos //=.
- by rewrite addn0 => nk _; rewrite ltnNge nk.
- by rewrite addn0 => _ nk; rewrite ltnNge nk.
move=> n1 n2; case: ltnP => // kn; case: eqP => // _.
have step f : n <= st_k st + f.+1 -> n <= st_k st * 2 + f.
  move=> nk.
  by rewrite muln2 -addnn -addnA (leq_trans nk) // leq_add2l -add1n leq_add2r.
by apply: IH; rewrite /= ?muln_gt0 ?kpos ?step.
Qed.

(** ** The argsort of a sorted array *)

Lemma argsort_sorted (K : Type) (le : rel K) (d : K) (a : seq K) :
  total le -> transitive le -> sorted le a ->
  argsort le d a = iota 0 (size a).
Proof.
move=> tot tr srt.
apply: (irr_sorted_eq (@stable_lt_trans _ le d tr a) (@stable_lt_irr _ le d a)).
- exact: argsort_stable.
- apply/(sortedP 0) => i; rewrite size_iota => ilt.
  rewrite !nth_iota ?(ltnW ilt) // !add0n /stable_lt /= ltnSn implybT andbT.
  by move/(sortedP d): srt; apply.
- by move=> p; rewrite (perm_mem (perm_argsort le d a)).
Qed.

Lemma sorted_keys_gather (K : Type) (le : rel K) (d : K) (keyf : nat -> K)
    (sa : seq nat) :
  total le ->
  sorted le [seq keyf i
            | i <- gather 0 sa (argsort le d [seq keyf i | i <- sa])].
Proof.
move=> tot; rewrite /gather -map_comp sorted_map.
have := argsort_stable d tot [seq keyf i | i <- sa].
apply: (@sub_in_sorted _ (gtn (size sa))); last first.
  apply/allP => p; rewrite (perm_mem (perm_argsort _ _ _)) mem_iota size_map.
  by rewrite add0n.
move=> p q; rewrite !inE => pn qn /=.
by rewrite !(nth_map 0) // => /andP[].
Qed.

(** ** Reading a well-formed file *)

Lemma ascii_forall (P : pred ascii) :
  all P [seq ascii_of_nat i | i <- iota 0 256] -> forall c, P c.
Proof.
move=> /allP H c; apply: H; apply/mapP; exists (code c); last by rewrite codeK.
by rewrite mem_iota add0n /=; apply/ltP; exact: nat_ascii_bounded.
Qed.

Lemma upper_char_newline c : (upper_char c == newline) = (c == newline).
Proof.
have H : all (fun c => (upper_char c == newline) == (c == newline))
             [seq ascii_of_nat i | i <- iota 0 256] by vm_compute.
exact: (eqP (ascii_forall H c)).
Qed.

Lemma upper_char_sentinel c : (upper_char c == sentinel) = (c == sentinel).
Proof.
have H : all (fun c => (upper_char c == sentinel) == (c == sentinel))
             [seq ascii_of_nat i | i <- iota 0 256] by vm_compute.
exact: (eqP (ascii_forall H c)).
Qed.

Lemma base_not_space c : upper_char c \in bases -> ~~ isspace c.
Proof.
have H : all (fun c => (upper_char c \in bases) ==> ~~ isspace c)
             [seq ascii_of_nat i | i <- iota 0 256] by vm_compute.
exact: (implyP (ascii_forall H c)).
Qed.

Lemma remove_newlines_upper (x : str) :
  remove_newlines (upper x) = upper (remove_newlines x).
Proof.
rewrite /remove_newlines /upper filter_map; congr map.
by apply: eq_filter => c /=; rewrite upper_char_newline.
Qed.

Lemma only_newlines_lstrip x : only_newlines x -> only_newlines (lstrip x).
Proof.
by elim: x => [|a x IH] //= /andP[ha hx]; case: ifP => _; rewrite ?IH //= ha.
Qed.

Lemma remove_newlines_lstrip x :
  only_newlines x -> remove_newlines (lstrip x) = remove_newlines x.
Proof.
elim: x => [|a x IH] //= /andP[ha hx]; case: ifP => sp //.
by move: ha; rewrite sp /= => /eqP ->; rewrite eqxx /= IH.
Qed.

Lemma remove_newlines_strip x :
  only_newlines x -> remove_newlines (strip x) = remove_newlines x.
Proof.
move=> on.
have on1 : only_newlines (lstrip x) by exact: only_newlines_lstrip.
have on2 : only_newlines (rev (lstrip x)) by rewrite /only_newlines all_rev.
have rm_rev y : remove_newlines (rev y) = rev (remove_newlines y).
  by rewrite /remove_newlines filter_rev.
by rewrite /strip /rstrip rm_rev (remove_newlines_lstrip on2) rm_rev revK
           remove_newlines_lstrip.
Qed.

Lemma strip_line (header : str) :
  prefix (py ">") header -> ~~ isspace (last nul header) ->
  strip (header ++ [:: newline]) = header.
Proof.
case: header => [|c0 h] //= /andP[/eqP <- _] /=.
rewrite /strip /= /rstrip -cat_cons rev_cat /=.
case/lastP: h => [|h c] //=; rewrite last_rcons -rcons_cons rev_rcons /=.
by case: (isspace c) => //= _; rewrite -rev_rcons revK.
Qed.

Lemma readline_header (header body : str) :
  newline \notin header ->
  readline (header ++ newline :: body) = header ++ [:: newline]
  /\ read_rest (header ++ newline :: body) = body.
Proof.
move=> nl; rewrite /readline /read_rest index_cat (negbTE nl) /= ?eqxx addn0.
rewrite take_cat drop_cat ltnNge leqnSn /= subSnn /= take0 drop0.
by [].
Qed.

Lemma validation_client_well_formed gethostbyname open_read
    (host : str) (port : Z) (file operation header body : str) :
  valid_port port -> gethostbyname host = Resolved ->
  suffix (py ".txt") file || suffix (py ".fasta") file ->
  prefix (py ">") header -> newline \notin header ->
  ~~ isspace (last nul header) ->
  all (fun c => (c == newline) || (upper_char c \in bases)) body ->
  remove_newlines body != [::] ->
  (operation == py "BWT") ==> (sentinel \notin body) ->
  (operation == py "REVERT") ==> (count_mem sentinel body == 1) ->
  open_read file = Text (header ++ newline :: body) ->
  validation_client gethostbyname open_read host port file operation
  = Accepted (host, port, header, upper (remove_newlines body)).
Proof.
move=> vp res sfx pre nl nsp al ne hb hr e.
have on : only_newlines body.
  by apply: sub_all al => c /orP[/eqP ->|/base_not_space /negbTE ->].
rewrite /validation_client vp res sfx e /=.
have [-> ->] := readline_header body nl.
rewrite strip_line // pre /= remove_newlines_upper (remove_newlines_strip on).
have cnt : count_mem sentinel (upper (remove_newlines body))
           = count_mem sentinel body.
  rewrite count_map count_filter; apply: eq_count => c /=.
  by rewrite upper_char_sentinel; case: eqP => // ->.
have nn : nilp (upper (remove_newlines body)) = false.
  by rewrite /nilp size_map; case: (remove_newlines body) ne.
have alb : all (fun base => base \in bases) (upper (remove_newlines body)).
  by rewrite all_map all_filter; apply: sub_all al => c /=; case: eqP.
rewrite nn cnt alb /=; move: hb hr => /=.
case: (operation == _) => /= [ns|_].
  by rewrite (count_memPn ns) /=; case: (operation == _) => //= /eqP ->.
by case: (operation == _) => //= /eqP ->.
Qed.

(** * Properties stated by the specification *)

(** ** Suffix array construction *)

(** C7. For every input of length at least 1, the suffix array held after
    each doubling round, and the one returned, is a permutation of the
    start offsets [0 .. n-1]: each offset appears exactly once. *)
Theorem suffix_array_is_permutation (s : str) :
  1 <= size s ->
  (forall r,
     perm_eq (st_sa (iter r (doubling_round (size s)) (initial_state s)))
             (iota 0 (size s)))
  /\ perm_eq (build_suffix_array s) (iota 0 (size s)).
Proof.
by move=> _; split; [exact: perm_rounds | exact: perm_build_suffix_array].
Qed.

Lemma suffix_array_is_permutation_witness :
  1 <= size (py "GATTACA")
  /\ ((forall r,
         perm_eq (st_sa (iter r (doubling_round (size (py "GATTACA")))
                             (initial_state (py "GATTACA"))))
                 (iota 0 (size (py "GATTACA"))))
      /\ perm_eq (build_suffix_array (py "GATTACA"))
                 (iota 0 (size (py "GATTACA")))).
Proof.
split; first by vm_compute.
by apply: suffix_array_is_permutation; vm_compute.
Defined.

(** C2, as the code has it. On "AA" the builder returns [0; 1]: it orders
    rotations, and the suffix "AA" at offset 0 is greater than the suffix
    "A" at offset 1, so the output is neither sorted by suffix nor equal to
    the reference sort. *)
Lemma suffix_order_counterexample :
  [/\ over_alphabet (py "AA"), 1 <= size (py "AA"),
      build_suffix_array (py "AA") = [:: 0; 1],
      lex_le (drop 0 (py "AA")) (drop 1 (py "AA")) = false
    & build_suffix_array (py "AA") <> reference_suffix_array (py "AA")].
Proof. by split; vm_compute. Qed.

(** C2, amended. For every input made of a sequence over the alphabet
    followed by the sentinel, the suffixes listed by the output ascend
    lexicographically, and the output equals the reference sort of all
    suffix start offsets with ties broken by offset. *)
Theorem suffix_array_sorted_with_sentinel (S : str) :
  over_alphabet S ->
  let T := S ++ [:: sentinel] in
  let sa := build_suffix_array T in
  (forall i j, i < j -> j < size T ->
     lex_le (drop (nth 0 sa i) T) (drop (nth 0 sa j) T))
  /\ sa = reference_suffix_array T.
Proof.
move=> /over_alphabet_sentinel nS T sa.
have e : sa = reference_suffix_array T by exact: build_suffix_array_reference.
split=> // i j ij jlt.
have sz : size sa = size T by rewrite size_build_suffix_array.
have srt : sorted (suffix_le T) sa by rewrite e; exact: reference_sorted.
apply: (sorted_ltn_nth (@suffix_le_trans T) 0 srt) => //.
  by rewrite inE sz (ltn_trans ij).
by rewrite inE sz.
Qed.

Lemma suffix_array_sorted_with_sentinel_witness :
  over_alphabet (py "GATTACA")
  /\ (let T := py "GATTACA" ++ [:: sentinel] in
      let sa := build_suffix_array T in
      (forall i j, i < j -> j < size T ->
         lex_le (drop (nth 0 sa i) T) (drop (nth 0 sa j) T))
      /\ sa = reference_suffix_array T).
Proof.
split; first by vm_compute.
by apply: suffix_array_sorted_with_sentinel; vm_compute.
Defined.

(** ** Encoding *)

(** C4, as the code has it. On "A$C" the encoder raises nothing and returns
    the string "CA$$". *)
Lemma encode_sentinel_counterexample :
  [/\ sentinel \in py "A$C",
      burrows_wheeler_conversion (py "A$C") = Returns (py "CA$$")
    & burrows_wheeler_conversion (py "A$C") <> Raises SentinelAlreadyPresent].
Proof. by split; vm_compute. Qed.

(** C4, amended. For every input that already contains the sentinel, the
    encoder raises no error and returns a string one symbol longer than the
    input, NUL characters not counted: the array gives them back as empty
    strings, which leave nothing in the result. For an input without NUL
    the result is exactly one symbol longer (the check for the sentinel is
    left to the caller). *)
Theorem encode_with_sentinel_returns (S : str) :
  sentinel \in S ->
  exists t, burrows_wheeler_conversion S = Returns t
            /\ size t = (size S).+1 - count_mem nul S.
Proof.
move=> _; have [t e p] := perm_encode S; exists t; split=> //.
rewrite (perm_size p) size_cat /= addn1 -/(join_chars S) size_join_chars.
by rewrite subSn // count_size.
Qed.

Lemma encode_with_sentinel_returns_witness :
  sentinel \in py "A$C"
  /\ exists t, burrows_wheeler_conversion (py "A$C") = Returns t
               /\ size t = (size (py "A$C")).+1 - count_mem nul (py "A$C").
Proof.
split; first by vm_compute.
by apply: encode_with_sentinel_returns; vm_compute.
Defined.

(** C5. For every sentinel-free input [S] of length [n], the encoder returns
    a string of length [n + 1] whose entry [i] is [S'[(SA[i] - 1) mod (n+1)]],
    where [S'] is [S] followed by the sentinel and [SA] is the suffix array
    of [S']. The input holds no NUL character, as every sequence over the
    alphabet does: numpy would give it back as an empty string. *)
Theorem encode_formula (S : str) :
  sentinel \notin S -> nul \notin S ->
  let S' := S ++ [:: sentinel] in
  let SA := reference_suffix_array S' in
  exists t,
    [/\ burrows_wheeler_conversion S = Returns t,
        size t = (size S).+1
      & forall i, i < (size S).+1 ->
          nth nul t i
          = nth nul S' (Z.to_nat (Z.modulo (Z.of_nat (nth 0 SA i) - 1)
                                           (Z.of_nat (size S).+1)))].
Proof.
move=> nS nulS S' SA; rewrite burrows_wheeler_conversion_plain //.
rewrite build_suffix_array_reference // -/S' -/SA.
have szSA : size SA = (size S).+1.
  by rewrite (perm_size (perm_reference S')) size_iota size_cat addn1.
eexists; split; first by [].
  by rewrite size_map.
move=> i ilt; rewrite (nth_map 0) ?szSA // -py_mod_pred //.
have : nth 0 SA i \in SA by rewrite mem_nth // szSA.
by rewrite (perm_mem (perm_reference S')) mem_iota add0n size_cat addn1.
Qed.

Lemma encode_formula_witness :
  sentinel \notin py "GATTACA" /\ nul \notin py "GATTACA"
  /\ (let S' := py "GATTACA" ++ [:: sentinel] in
      let SA := reference_suffix_array S' in
      exists t,
        [/\ burrows_wheeler_conversion (py "GATTACA") = Returns t,
            size t = (size (py "GATTACA")).+1
          & forall i, i < (size (py "GATTACA")).+1 ->
              nth nul t i
              = nth nul S'
                    (Z.to_nat (Z.modulo (Z.of_nat (nth 0 SA i) - 1)
                                 (Z.of_nat (size (py "GATTACA")).+1)))]).
Proof.
split; first by vm_compute.
split; first by vm_compute.
by apply: encode_formula; vm_compute.
Defined.

(** C9. On the empty input the encoder returns the one-symbol string "$";
    it does not raise [EmptyInputError]. *)
Theorem encode_empty :
  burrows_wheeler_conversion [::] = Returns [:: sentinel]
  /\ burrows_wheeler_conversion [::] <> Raises EmptyInputError.
Proof. by split; vm_compute. Qed.

(** ** Decoding *)

(** C10. On the one-symbol input "$" the decoder raises nothing and returns
    the empty string. *)
Theorem decode_sentinel_only :
  revert_burrows_wheeler [:: sentinel] = Returns [::].
Proof. by vm_compute. Qed.

(** C6. For every string [T] and position [i], the last-to-first map sends
    [i] to the index of the first occurrence of [T[i]] in the sorted copy of
    [T] plus the number of occurrences of [T[i]] in [T[0..i-1]]; at that
    index the sorted copy holds the same symbol, preceded by as many
    occurrences of it as [T[i]] is in [T]. *)
Theorem last_to_first_formula (T : str) i :
  i < size T ->
  let c := nth nul T i in
  let first_col := sort le_char T in
  let j := nth 0 (map_last_to_first T) i in
  [/\ j = index c first_col + count_mem c (take i T),
      nth nul first_col j = c
    & count_mem c (take j first_col) = count_mem c (take i T)].
Proof.
move=> ilt c first_col j.
have ej : j = index c first_col + count_mem c (take i T).
  exact: nth_map_last_to_first.
have lt : count_mem c (take i T) < count_mem c first_col.
  rewrite count_sort -[X in _ < count_mem c X](cat_take_drop i) count_cat.
  by rewrite (drop_nth nul ilt) /= eqxx -addn1 leq_add2l addnC ltn_addl.
have [e1 e2] := sorted_block (sort_sorted le_char_total T) lt.
by split; rewrite // ej.
Qed.

Lemma last_to_first_formula_witness :
  3 < size (py "TTTTT$AAAAACCCCCGGGGG")
  /\ (let T := py "TTTTT$AAAAACCCCCGGGGG" in
      let c := nth nul T 3 in
      let first_col := sort le_char T in
      let j := nth 0 (map_last_to_first T) 3 in
      [/\ j = index c first_col + count_mem c (take 3 T),
          nth nul first_col j = c
        & count_mem c (take j first_col) = count_mem c (take 3 T)]).
Proof.
split; first by vm_compute.
by apply: last_to_first_formula; vm_compute.
Defined.

(** C3, as the code has it. On "ACGT" (no sentinel) the decoder raises
    [IndexError], not [SentinelCountError]; on "A$$C" (two sentinels) it
    raises nothing and returns "$$A". *)
Lemma decode_sentinel_count_counterexample :
  [/\ count_mem sentinel (py "ACGT") = 0,
      revert_burrows_wheeler (py "ACGT") <> Raises SentinelCountError,
      count_mem sentinel (py "A$$C") = 2,
      revert_burrows_wheeler (py "A$$C") = Returns (py "$$A")
    & revert_burrows_wheeler (py "A$$C") <> Raises SentinelCountError].
Proof. by split; vm_compute. Qed.

(** C3, amended. On an input without sentinel the decoder raises the
    untyped [IndexError] and returns nothing; on an input with two or more
    sentinels it raises nothing and returns a string shorter than the
    input, by exactly one symbol when the input holds no NUL character (the
    array gives NUL characters back as empty strings, which leave nothing
    in the result). *)
Theorem decode_invalid_sentinel_count (T : str) :
  count_mem sentinel T != 1 ->
  if count_mem sentinel T == 0
  then revert_burrows_wheeler T = Raises IndexError
  else exists s, [/\ revert_burrows_wheeler T = Returns s,
                     size s <= (size T).-1
                   & nul \notin T -> size s = (size T).-1].
Proof.
move=> _; case: ifP => [/eqP c0|/negbT cpos].
  by apply: revert_no_sentinel; rewrite -has_pred1 has_count c0.
by apply: revert_some_sentinel; rewrite -has_pred1 has_count lt0n.
Qed.

Lemma decode_invalid_sentinel_count_witness :
  count_mem sentinel (py "A$$C") != 1
  /\ (if count_mem sentinel (py "A$$C") == 0
      then revert_burrows_wheeler (py "A$$C") = Raises IndexError
      else exists s, [/\ revert_burrows_wheeler (py "A$$C") = Returns s,
                         size s <= (size (py "A$$C")).-1
                       & nul \notin py "A$$C" ->
                         size s = (size (py "A$$C")).-1]).
Proof.
split; first by vm_compute.
by apply: (@decode_invalid_sentinel_count (py "A$$C")); vm_compute.
Defined.

(** ** Round trip *)

(** C1. For every sequence [S] over the alphabet (hence without sentinel),
    of any length including 0, decoding the encoding of [S] returns [S]. *)
Theorem round_trip (S : str) :
  over_alphabet S ->
  bind (burrows_wheeler_conversion S) revert_burrows_wheeler = Returns S.
Proof.
move=> al; apply: revert_conversion.
  exact: over_alphabet_sentinel.
exact: over_alphabet_nul.
Qed.

Lemma round_trip_witness :
  over_alphabet (py "GATTACA")
  /\ bind (burrows_wheeler_conversion (py "GATTACA")) revert_burrows_wheeler
     = Returns (py "GATTACA").
Proof.
split; first by vm_compute.
by apply: round_trip; vm_compute.
Defined.

(** ** Determinism *)

(** C8. The encoder and the decoder are deterministic. Each is a function of
    its input string and of the sorting routines of the numpy it runs on,
    and of nothing else; and whichever routines it runs on, provided they
    keep numpy's promises (a stable argsort, a sorting sort), the same input
    string gives the same outcome. *)
Theorem conversion_deterministic
    (argsort_char argsort_char' : str -> seq nat)
    (argsort_pair argsort_pair' : seq (nat * nat) -> seq nat)
    (sort_char sort_char' : str -> str) (s : str) :
  stable_argsort le_char nul argsort_char ->
  stable_argsort le_char nul argsort_char' ->
  stable_argsort le_pair (0, 0) argsort_pair ->
  stable_argsort le_pair (0, 0) argsort_pair' ->
  sorts_chars sort_char ->
  sorts_chars sort_char' ->
  burrows_wheeler_conversion_with argsort_char argsort_pair s
  = burrows_wheeler_conversion_with argsort_char' argsort_pair' s
  /\ revert_burrows_wheeler_with sort_char s
     = revert_burrows_wheeler_with sort_char' s.
Proof.
move=> Hc Hc' Hp Hp' Hs Hs'; split.
  apply: eq_burrows_wheeler_conversion => a.
    by rewrite (stable_argsort_unique le_char_total le_char_trans Hc)
               (stable_argsort_unique le_char_total le_char_trans Hc').
  by rewrite (stable_argsort_unique le_pair_total le_pair_trans Hp)
             (stable_argsort_unique le_pair_total le_pair_trans Hp').
apply: eq_revert_burrows_wheeler => a.
by rewrite (sorts_chars_unique Hs) (sorts_chars_unique Hs').
Qed.

Lemma conversion_deterministic_witness :
  stable_argsort le_char nul (argsort le_char nul)
  /\ stable_argsort le_char nul (argsort_by_index le_char nul)
  /\ stable_argsort le_pair (0, 0) (argsort le_pair (0, 0))
  /\ stable_argsort le_pair (0, 0) (argsort_by_index le_pair (0, 0))
  /\ sorts_chars (sort le_char)
  /\ sorts_chars sort_reversed
  /\ (burrows_wheeler_conversion_with
        (argsort le_char nul) (argsort le_pair (0, 0)) (py "GATTACA")
      = burrows_wheeler_conversion_with
          (argsort_by_index le_char nul) (argsort_by_index le_pair (0, 0))
          (py "GATTACA")
      /\ revert_burrows_wheeler_with (sort le_char) (py "GATTACA")
         = revert_burrows_wheeler_with sort_reversed (py "GATTACA")).
Proof.
have Hc := argsort_is_stable nul le_char_total.
have Hc' := argsort_by_index_is_stable nul le_char_total.
have Hp := argsort_is_stable (0, 0) le_pair_total.
have Hp' := argsort_by_index_is_stable (0, 0) le_pair_total.
have Hs := sort_sorts_chars.
have Hs' := sort_reversed_sorts_chars.
do 6![split; first by []].
exact: (conversion_deterministic (py "GATTACA") Hc Hc' Hp Hp' Hs Hs').
Defined.

(** * Further properties of the code *)

(** ** Suffix array construction *)

(** X1. Whatever the input, [build_suffix_array] returns the stable argsort
    of the rotations of its input: the start positions ordered by the
    rotation that begins there, equal rotations by position. *)
Theorem suffix_array_sorts_rotations (s : str) :
  build_suffix_array s = argsort lex_le [::] (rotations s).
Proof.
case: (posnP (size s)) => [/size0nil -> //|s_gt0].
have szr : size (rotations s) = size s by rewrite size_map size_iota.
have perm := perm_build_suffix_array s.
apply: (irr_sorted_eq
          (@stable_lt_trans _ lex_le [::] lex_le_trans (rotations s))
          (@stable_lt_irr _ lex_le [::] (rotations s))).
- exact: rot_sorted_stable perm (build_suffix_array_rot s_gt0).
- exact: argsort_stable lex_le_total _.
- by move=> p; rewrite (perm_mem perm) (perm_mem (perm_argsort _ _ _)) szr.
Qed.

(** X2. The early [break] of the doubling loop is an optimisation only: the
    loop run to [k >= len(seq)] without it ends on the same suffix array. *)
Theorem early_break_keeps_result (s : str) :
  doubling_loop_no_break (size s) (size s) (initial_state s)
  = build_suffix_array s.
Proof.
case: (posnP (size s)) => [/size0nil -> //|s_gt0].
have [|st [inv -> exit]] :=
  @doubling_loop_no_break_inv s s_gt0 (size s) (initial_state s)
                              (init_inv s) isT.
  by rewrite /= add1n.
apply: (rot_sorted_unique _ (perm_build_suffix_array s)).
- by case: inv.
- by apply: exit_sorted_rot => //; left.
- exact: build_suffix_array_rot.
Qed.

(** X3. When the last character of a non-empty input occurs nowhere else in
    it, whatever its rank among the characters, [build_suffix_array]
    returns the suffix array: the start positions sorted by suffix. *)
Theorem suffix_array_unique_last (s : str) :
  0 < size s -> count_mem (last nul s) s = 1 ->
  build_suffix_array s = reference_suffix_array s.
Proof.
move=> s_gt0 /count_last_unique uq.
apply: sorted_is_reference (perm_build_suffix_array s) _.
exact: build_suffix_array_sorted.
Qed.

Lemma suffix_array_unique_last_witness :
  [/\ 0 < size (py "BANANAS"),
      count_mem (last nul (py "BANANAS")) (py "BANANAS") = 1
    & build_suffix_array (py "BANANAS")
      = reference_suffix_array (py "BANANAS")].
Proof.
split; [by [] | by vm_compute |].
by apply: suffix_array_unique_last; vm_compute.
Defined.

(** X4. For a suffix array listing every position once, [calculate_ranks]
    returns one rank per position, and two positions compare by rank as
    their records [(ranks[i], ranks[(i + k) % n])] compare field by field:
    equal records get equal ranks, a smaller record a smaller rank. *)
Theorem calculate_ranks_orders_records (suffix_array : seq nat) (k : nat)
    (ranks : seq nat) :
  perm_eq suffix_array (iota 0 (size ranks)) ->
  let next_ranks := calculate_ranks suffix_array k ranks in
  size next_ranks = size ranks
  /\ forall i j, i < size ranks -> j < size ranks ->
       (nth 0 next_ranks i <= nth 0 next_ranks j)
       = le_pair (rank_pair ranks k (size ranks) i)
                 (rank_pair ranks k (size ranks) j).
Proof. exact: calculate_ranks_le. Qed.

Lemma calculate_ranks_orders_records_witness :
  perm_eq [:: 2; 0; 3; 1] (iota 0 (size [:: 1; 2; 0; 1]))
  /\ (let next_ranks := calculate_ranks [:: 2; 0; 3; 1] 1 [:: 1; 2; 0; 1] in
      size next_ranks = size [:: 1; 2; 0; 1]
      /\ forall i j, i < size [:: 1; 2; 0; 1] -> j < size [:: 1; 2; 0; 1] ->
           (nth 0 next_ranks i <= nth 0 next_ranks j)
           = le_pair (rank_pair [:: 1; 2; 0; 1] 1 (size [:: 1; 2; 0; 1]) i)
                     (rank_pair [:: 1; 2; 0; 1] 1 (size [:: 1; 2; 0; 1]) j)).
Proof.
split; first by vm_compute.
by apply: calculate_ranks_orders_records; vm_compute.
Defined.

(** ** Encoding *)

(** X5. Whatever the input, the encoder returns a rearrangement of the
    input without its NUL characters, followed by one sentinel: every other
    symbol occurs in the output as often as in the input, the sentinel once
    more, and NUL never. *)
Theorem encode_permutes_symbols (s : str) :
  exists t, burrows_wheeler_conversion s = Returns t
            /\ perm_eq t ([seq c <- s | c != nul] ++ [:: sentinel]).
Proof.
by have [t e p] := perm_encode s; exists t.
Qed.

(** X6. The encoder is injective on the inputs that hold neither the
    sentinel nor a NUL character: two such inputs with the same transform
    are equal. *)
Theorem encode_injective (s1 s2 : str) :
  sentinel \notin s1 -> nul \notin s1 ->
  sentinel \notin s2 -> nul \notin s2 ->
  burrows_wheeler_conversion s1 = burrows_wheeler_conversion s2 ->
  s1 = s2.
Proof.
move=> n1 z1 n2 z2 e.
have e1 := revert_conversion n1 z1; have e2 := revert_conversion n2 z2.
by rewrite e e2 in e1; case: e1.
Qed.

Lemma encode_injective_witness :
  [/\ sentinel \notin py "GATTACA" /\ nul \notin py "GATTACA",
      sentinel \notin py "GATTACA" /\ nul \notin py "GATTACA",
      burrows_wheeler_conversion (py "GATTACA")
      = burrows_wheeler_conversion (py "GATTACA")
    & py "GATTACA" = py "GATTACA"].
Proof.
split; [by [] | by [] | by [] |].
exact: (@encode_injective (py "GATTACA") (py "GATTACA")).
Defined.

(** ** Decoding *)

(** X7. Whatever the string, [map_last_to_first] returns a permutation of
    its positions, and reading the sorted string at these positions gives
    the string back: each position is sent to a position of the first
    column that holds the same character. *)
Theorem last_to_first_permutation (bwt : str) :
  perm_eq (map_last_to_first bwt) (iota 0 (size bwt))
  /\ gather nul (sort le_char bwt) (map_last_to_first bwt) = bwt.
Proof.
split; first exact: perm_map_last_to_first.
apply: (@eq_from_nth _ nul).
  by rewrite /gather size_map size_map_last_to_first.
move=> i; rewrite /gather size_map size_map_last_to_first => ilt.
rewrite (nth_map 0) ?size_map_last_to_first //.
by case: (last_to_first_char ilt).
Qed.

(** X8. The dictionary [first] built from the first column maps a
    character to the position of its first occurrence there, and holds no
    other key. *)
Theorem first_occurrence_index (first_col : str) (c : ascii) :
  first_occurrence first_col c
  = if c \in first_col then Some (index c first_col) else None.
Proof.
by rewrite /first_occurrence /enumerate first_occurrence_fold.
Qed.

(** ** The server *)

(** X9. The receiving loop returns the bytes that precede the first
    newline of the stream, however the stream is cut into chunks; what
    follows the newline is dropped, and without a newline the loop goes on
    reading. *)
Theorem receive_any_chunking (chunks : seq str) :
  receive chunks [::]
  = if newline \in flatten chunks
    then Some (take (index newline (flatten chunks)) (flatten chunks))
    else None.
Proof. by rewrite receive_flatten. Qed.

(** X10. A request [operation: seq] followed by a newline, whose two parts
    hold neither a colon nor a newline, is taken apart by the server into
    the same two parts however it is chunked; the sequence goes to the
    encoder when the label is "BWT" and to the decoder for every other
    label, and the result is sent back followed by a newline. *)
Theorem request_dispatch (operation sq : str) (chunks : seq str) :
  seven_bit operation -> seven_bit sq ->
  colon \notin operation -> colon \notin sq ->
  newline \notin operation -> newline \notin sq ->
  flatten chunks = request operation sq ->
  handle_request chunks
  = match (if operation == py "BWT" then burrows_wheeler_conversion sq
           else revert_burrows_wheeler sq) with
    | Returns result => Sent (result ++ [:: newline])
    | Raises e => Logged (ConversionError e)
    end.
Proof. by move=> _ _; exact: handle_request_request. Qed.

Lemma request_dispatch_witness :
  [/\ seven_bit (py "FOO"), seven_bit (py "TTTTT$AAAAACCCCCGGGGG"),
      colon \notin py "FOO" /\ colon \notin py "TTTTT$AAAAACCCCCGGGGG",
      newline \notin py "FOO" /\ newline \notin py "TTTTT$AAAAACCCCCGGGGG"
    & flatten [:: py "FO"; py "O: TTTTT$AAAAA"; py "CCCCCGGGGG" ++ [:: newline]]
      = request (py "FOO") (py "TTTTT$AAAAACCCCCGGGGG")
      /\ handle_request
           [:: py "FO"; py "O: TTTTT$AAAAA"; py "CCCCCGGGGG" ++ [:: newline]]
         = Sent (py "ACGTACGTACGTACGTACGT" ++ [:: newline])].
Proof.
split; [by [] | by [] | by [] | by [] |]; split; first by [].
by rewrite (@request_dispatch (py "FOO") (py "TTTTT$AAAAACCCCCGGGGG")) //
           revert_acgt.
Defined.

(** X11. A message that holds no colon cannot be unpacked into an
    operation and a sequence: the server logs the error and sends
    nothing. *)
Theorem request_without_separator (line rest : str) (chunks : seq str) :
  seven_bit line -> newline \notin line -> colon \notin line ->
  flatten chunks = line ++ newline :: rest ->
  handle_request chunks = Logged UnpackError.
Proof.
move=> _ nl nc e; rewrite (handle_request_line nl e).
by rewrite /split split_from_plain.
Qed.

Lemma request_without_separator_witness :
  [/\ seven_bit (py "ACGT"), newline \notin py "ACGT", colon \notin py "ACGT",
      flatten [:: py "AC"; py "GT" ++ [:: newline]]
      = py "ACGT" ++ newline :: [::]
    & handle_request [:: py "AC"; py "GT" ++ [:: newline]]
      = Logged UnpackError].
Proof.
split; [by [] | by [] | by [] | by [] |].
exact: (@request_without_separator (py "ACGT") [::]).
Defined.

(** X12. A request under a label other than "BWT" whose sequence holds no
    sentinel is not answered: the decoder's [IndexError] is logged and
    nothing is sent. *)
Theorem revert_request_without_sentinel (operation sq : str)
    (chunks : seq str) :
  seven_bit operation -> seven_bit sq ->
  colon \notin operation -> colon \notin sq ->
  newline \notin operation -> newline \notin sq ->
  operation != py "BWT" -> sentinel \notin sq ->
  flatten chunks = request operation sq ->
  handle_request chunks = Logged (ConversionError IndexError).
Proof.
move=> _ _ co cs no ns /negbTE nb nsen e.
by rewrite (handle_request_request co cs no ns e) nb revert_no_sentinel.
Qed.

Lemma revert_request_without_sentinel_witness :
  [/\ seven_bit (py "REVERT") /\ seven_bit (py "ACGT"),
      colon \notin py "REVERT" /\ colon \notin py "ACGT",
      newline \notin py "REVERT" /\ newline \notin py "ACGT",
      py "REVERT" != py "BWT" /\ sentinel \notin py "ACGT"
    & flatten [:: py "REVERT: AC"; py "GT" ++ [:: newline]]
      = request (py "REVERT") (py "ACGT")
      /\ handle_request [:: py "REVERT: AC"; py "GT" ++ [:: newline]]
         = Logged (ConversionError IndexError)].
Proof.
split; [by [] | by [] | by [] | by [] |]; split; first by [].
exact: (@revert_request_without_sentinel (py "REVERT") (py "ACGT")).
Defined.

(** ** The client and the server together *)

(** X13. A sequence that [validation_client] accepts for BWT is answered by
    the server with its transform followed by a newline, which the client's
    receiving loop reads back as the transform. The transform is made of
    valid bases with the sentinel exactly once, and a REVERT request for it
    is answered with the sequence. *)
Theorem validated_bwt_round_trip gethostbyname open_read
    (host : str) (port : Z) (file : str) h p (header sq : str) :
  (forall text, open_read file = Text text -> seven_bit text) ->
  validation_client gethostbyname open_read host port file (py "BWT")
  = Accepted (h, p, header, sq) ->
  exists T,
    [/\ burrows_wheeler_conversion sq = Returns T,
        forall chunks, flatten chunks = request (py "BWT") sq ->
          handle_request chunks = Sent (T ++ [:: newline]),
        forall chunks rest, flatten chunks = T ++ newline :: rest ->
          receive chunks [::] = Some T,
        all (fun base => base \in bases) T /\ count_mem sentinel T = 1
      & forall chunks, flatten chunks = request (py "REVERT") T ->
          handle_request chunks = Sent (sq ++ [:: newline])].
Proof.
move=> _ /validation_client_accepted [text _ [_ ne al nb _]].
have nsen := nb (erefl _); have [cs ns nz _] := bases_plain al.
have [T eT] := perm_encode sq.
rewrite -/(join_chars sq) (join_chars_id nz) => pT.
have alT : all (fun base => base \in bases) T.
  by rewrite (perm_all _ pT) all_cat al.
have [cT nT _ _] := bases_plain alT.
exists T; split=> //.
- by move=> chunks e; rewrite (handle_request_request _ cs _ ns e) // eT.
- by move=> chunks rest; exact: receive_line.
- split=> //; rewrite (permP pT) count_cat /= addn0 addn1; congr _.+1.
  by apply/eqP; rewrite -leqn0 leqNgt -has_count has_pred1.
- move=> chunks e; rewrite (handle_request_request _ cT _ nT e) //=.
  by have := revert_conversion nsen nz; rewrite eT /= => ->.
Qed.

Lemma validated_bwt_round_trip_witness :
  (forall text, sample_files (py "s.fasta") = Text text -> seven_bit text)
  /\ validation_client sample_hosts sample_files (py "localhost") 12345
       (py "s.fasta") (py "BWT")
     = Accepted (py "localhost", 12345%Z, py ">seq1 sample", py "ACGTACGN")
  /\ exists T,
       [/\ burrows_wheeler_conversion (py "ACGTACGN") = Returns T,
           forall chunks, flatten chunks = request (py "BWT") (py "ACGTACGN") ->
             handle_request chunks = Sent (T ++ [:: newline]),
           forall chunks rest, flatten chunks = T ++ newline :: rest ->
             receive chunks [::] = Some T,
           all (fun base => base \in bases) T /\ count_mem sentinel T = 1
         & forall chunks, flatten chunks = request (py "REVERT") T ->
             handle_request chunks = Sent (py "ACGTACGN" ++ [:: newline])].
Proof.
have H : forall text, sample_files (py "s.fasta") = Text text -> seven_bit text.
  by move=> text [<-].
split; first exact: H.
split; first by vm_compute.
exact: (@validated_bwt_round_trip sample_hosts sample_files (py "localhost")
          12345 (py "s.fasta") _ _ _ _ H (erefl _)).
Defined.

(** X14. A sequence that [validation_client] accepts for REVERT is always
    answered: the server sends back a string one symbol shorter than the
    sequence, followed by a newline. *)
Theorem validated_revert_answered gethostbyname open_read
    (host : str) (port : Z) (file : str) h p (header sq : str)
    (chunks : seq str) :
  (forall text, open_read file = Text text -> seven_bit text) ->
  validation_client gethostbyname open_read host port file (py "REVERT")
  = Accepted (h, p, header, sq) ->
  flatten chunks = request (py "REVERT") sq ->
  exists r, handle_request chunks = Sent (r ++ [:: newline])
            /\ size r = (size sq).-1.
Proof.
move=> _ /validation_client_accepted [text _ [_ ne al _ one]] e.
have [cs ns nz _] := bases_plain al.
have sen : sentinel \in sq by rewrite -has_pred1 has_count one.
have [r [er _ sz]] := revert_some_sentinel sen.
by exists r; rewrite (handle_request_request _ cs _ ns e) //= er (sz nz).
Qed.

Lemma validated_revert_answered_witness :
  (forall text, sample_transform_files (py "t.txt") = Text text ->
     seven_bit text)
  /\ validation_client sample_hosts sample_transform_files (py "localhost")
       12345 (py "t.txt") (py "REVERT")
     = Accepted (py "localhost", 12345%Z, py ">seq1 sample", py "NT$AACCGG")
  /\ flatten [:: py "REVERT: NT$A"; py "ACCGG" ++ [:: newline]]
     = request (py "REVERT") (py "NT$AACCGG")
  /\ exists r,
       handle_request [:: py "REVERT: NT$A"; py "ACCGG" ++ [:: newline]]
       = Sent (r ++ [:: newline])
       /\ size r = (size (py "NT$AACCGG")).-1.
Proof.
have H : forall text, sample_transform_files (py "t.txt") = Text text ->
    seven_bit text.
  by move=> text [<-].
split; first exact: H.
split; first by vm_compute.
split; first by [].
exact: (@validated_revert_answered sample_hosts sample_transform_files
          (py "localhost") 12345 (py "t.txt") _ _ _ (py "NT$AACCGG")
          [:: py "REVERT: NT$A"; py "ACCGG" ++ [:: newline]] H (erefl _)
          (erefl _)).
Defined.

(** ** The client *)

(** X15. The file the client writes is never accepted as an input file,
    whatever header, operation and sequence went into it and whatever
    operation is asked next: with a valid port and host, validation exits
    with code 3. *)
Theorem output_file_not_accepted gethostbyname open_read
    (host : str) (port : Z) (file operation header performed sq : str) :
  seven_bit (output_text header performed sq) ->
  valid_port port -> gethostbyname host = Resolved ->
  open_read file = Text (output_text header performed sq) ->
  validation_client gethostbyname open_read host port file operation
  = Exit 3.
Proof.
move=> _ vp res e; rewrite /validation_client vp res /=.
case: (_ || _) => //=; rewrite e.
case: (prefix _ _) => //=; do 3![case: ifP => // _].
case: ifP => // /negbFE /allP /(_ _ (output_text_colon header performed sq)).
by [].
Qed.

Lemma output_file_not_accepted_witness :
  [/\ seven_bit (output_text (py ">seq1") (py "BWT") (py "NT$AACCGG")),
      valid_port 12345, sample_hosts (py "localhost") = Resolved,
      (fun _ => Text (output_text (py ">seq1") (py "BWT") (py "NT$AACCGG")))
        (py "s_bwt_20240101_120000_output.txt")
      = Text (output_text (py ">seq1") (py "BWT") (py "NT$AACCGG"))
    & validation_client sample_hosts
        (fun _ => Text (output_text (py ">seq1") (py "BWT") (py "NT$AACCGG")))
        (py "localhost") 12345 (py "s_bwt_20240101_120000_output.txt")
        (py "REVERT")
      = Exit 3].
Proof.
split; [by [] | by [] | by [] | by [] |].
exact: (@output_file_not_accepted sample_hosts _ (py "localhost") 12345
          (py "s_bwt_20240101_120000_output.txt") (py "REVERT")
          (py ">seq1") (py "BWT") (py "NT$AACCGG")).
Defined.

(** ** Starting the server *)

(** X16. On a machine with at least one processor, the default of
    [--processes], [max(1, cpu_count - 1)], passes [validation_server]
    whenever the port is valid and the host resolves. *)
Theorem default_processes_accepted gethostbyname (cpu_count : Z)
    (host : str) (port : Z) :
  (1 <= cpu_count)%Z -> valid_port port -> gethostbyname host = Resolved ->
  validation_server gethostbyname cpu_count host port
    (default_processes cpu_count)
  = Accepted (host, port, default_processes cpu_count).
Proof.
move=> c1 vp res; rewrite /validation_server vp res /= /default_processes.
have -> : (Z.max 1 (cpu_count - 1) <? 1)%Z = false.
  by apply/Z.ltb_ge; lia.
have -> : (cpu_count * 2 <? Z.max 1 (cpu_count - 1))%Z = false.
  by apply/Z.ltb_ge; lia.
by [].
Qed.

Lemma default_processes_accepted_witness :
  [/\ (1 <= 1)%Z, valid_port 12345, sample_hosts (py "localhost") = Resolved
    & validation_server sample_hosts 1 (py "localhost") 12345
        (default_processes 1)
      = Accepted (py "localhost", 12345%Z, default_processes 1)].
Proof.
split; [by [] | by [] | by [] |].
exact: (@default_processes_accepted sample_hosts 1 (py "localhost") 12345).
Defined.

(** ** The doubling loop *)

(** X17. The doubling loop passes through its body at most ceil(log2 n)
    times: the loop that counts its passes leaves with the suffix array
    [build_suffix_array] returns after [r] passes, where [r] is 0 or
    [2 ^ (r - 1) < len(seq)]; the count is the same for every fuel from
    [len(seq)] on, so the loop leaves by its own exits, and the array is
    the one held after [r] rounds. *)
Theorem doubling_rounds_bound (s : str) :
  exists r,
    [/\ r = 0 \/ 2 ^ r.-1 < size s,
        forall fuel, size s <= fuel ->
          doubling_loop_counted fuel (size s) (initial_state s) 0
          = (r, build_suffix_array s)
      & build_suffix_array s
        = st_sa (iter r (doubling_round (size s)) (initial_state s))].
Proof.
have [r b e] :=
  doubling_loop_counted_rounds (size s) (size s) (initial_state s) 0.
have eb : build_suffix_array s
          = st_sa (iter r (doubling_round (size s)) (initial_state s)).
  by rewrite build_suffix_arrayE -(doubling_loop_countedE _ _ _ 0) e.
exists r; split=> //; first by move: b; rewrite /= mul1n.
move=> fuel le.
rewrite (@doubling_loop_counted_fuel _ _ _ fuel (size s)) ?e ?add0n ?eb //=.
by rewrite add1n leqW.
Qed.

(** X18. In a round of the loop, the suffix array handed to
    [calculate_ranks] is already in the order of its rank records, so the
    stable argsort inside [calculate_ranks] returns the positions
    [0 .. n-1] unchanged. *)
Theorem calculate_ranks_sorts_nothing (n : nat) (st : loop_state) :
  size (st_ranks st) = n ->
  let suffix_array := st_sa (doubling_round n st) in
  let suffix_ranks :=
    [seq rank_pair (st_ranks st) (st_k st) (size (st_ranks st)) i
    | i <- suffix_array] in
  argsort le_pair (0, 0) suffix_ranks = iota 0 (size suffix_array).
Proof.
move=> sz; rewrite doubling_roundE /= sz.
rewrite (argsort_sorted _ le_pair_total le_pair_trans) ?size_map //.
exact: sorted_keys_gather le_pair_total.
Qed.

Lemma calculate_ranks_sorts_nothing_witness :
  size (st_ranks (initial_state (py "GATTACA"))) = 7
  /\ (let st := initial_state (py "GATTACA") in
      let suffix_array := st_sa (doubling_round 7 st) in
      let suffix_ranks :=
        [seq rank_pair (st_ranks st) (st_k st) (size (st_ranks st)) i
        | i <- suffix_array] in
      argsort le_pair (0, 0) suffix_ranks = iota 0 (size suffix_array)).
Proof.
split; first by vm_compute.
by apply: calculate_ranks_sorts_nothing; vm_compute.
Defined.

(** ** Input files *)

(** X19. A file whose first line is a header that starts with ">" and
    does not end in white space, and whose other characters are newlines
    and bases in either letter case, is accepted when it holds a base and
    its sentinels suit the operation; the sequence returned is the rest of
    the file without its newlines, in upper case. *)
Theorem well_formed_file_accepted gethostbyname open_read
    (host : str) (port : Z) (file operation header body : str) :
  valid_port port -> gethostbyname host = Resolved ->
  suffix (py ".txt") file || suffix (py ".fasta") file ->
  seven_bit header -> prefix (py ">") header -> newline \notin header ->
  ~~ isspace (last nul header) ->
  all (fun c => (c == newline) || (upper_char c \in bases)) body ->
  remove_newlines body != [::] ->
  (operation == py "BWT") ==> (sentinel \notin body) ->
  (operation == py "REVERT") ==> (count_mem sentinel body == 1) ->
  open_read file = Text (header ++ newline :: body) ->
  validation_client gethostbyname open_read host port file operation
  = Accepted (host, port, header, upper (remove_newlines body)).
Proof. by move=> vp res sfx _; exact: validation_client_well_formed. Qed.

Lemma well_formed_file_accepted_witness :
  [/\ valid_port 12345 /\ sample_hosts (py "localhost") = Resolved,
      suffix (py ".txt") (py "s.fasta") || suffix (py ".fasta") (py "s.fasta"),
      [/\ seven_bit (py ">seq1 sample"), prefix (py ">") (py ">seq1 sample"),
          newline \notin py ">seq1 sample"
        & ~~ isspace (last nul (py ">seq1 sample"))],
      [/\ all (fun c => (c == newline) || (upper_char c \in bases))
              (py "acgt" ++ newline :: py "ACGN" ++ [:: newline]),
          remove_newlines (py "acgt" ++ newline :: py "ACGN" ++ [:: newline])
          != [::],
          (py "BWT" == py "BWT")
          ==> (sentinel
                 \notin py "acgt" ++ newline :: py "ACGN" ++ [:: newline])
        & (py "BWT" == py "REVERT")
          ==> (count_mem sentinel
                 (py "acgt" ++ newline :: py "ACGN" ++ [:: newline]) == 1)]
    & sample_files (py "s.fasta")
      = Text (py ">seq1 sample"
              ++ newline :: py "acgt" ++ newline :: py "ACGN" ++ [:: newline])
      /\ validation_client sample_hosts sample_files (py "localhost") 12345
           (py "s.fasta") (py "BWT")
         = Accepted (py "localhost", 12345%Z, py ">seq1 sample",
                     upper (remove_newlines
                              (py "acgt" ++ newline :: py "ACGN"
                               ++ [:: newline])))].
Proof.
split; [by [] | by [] | by [] | by [] |]; split; first by [].
exact: (@well_formed_file_accepted sample_hosts sample_files (py "localhost")
          12345 (py "s.fasta") (py "BWT") (py ">seq1 sample")
          (py "acgt" ++ newline :: py "ACGN" ++ [:: newline])).
Defined.

(** X20. How [validation_client] leaves. It returns only with a valid
    port, a host that resolves and a file that was read. It leaves through
    [sys.exit] with the codes 2, 3 and 4 only: 2 only when the input file
    is not found, 4 only when the host lookup raises [gaierror]. An
    exception gets through it only when the host lookup or the opening of
    the file raises one that it does not catch. *)
Theorem client_exit_codes gethostbyname open_read
    (host : str) (port : Z) (file operation : str) :
  (forall text, open_read file = Text text -> seven_bit text) ->
  match validation_client gethostbyname open_read host port file operation
  with
  | Accepted _ =>
      [/\ valid_port port, gethostbyname host = Resolved
         & exists text, open_read file = Text text]
  | Exit code =>
      [\/ code = 2 /\ open_read file = FileNotFound,
          code = 4 /\ gethostbyname host = GaiError
        | code = 3]
  | Propagates HostException => gethostbyname host = HostOtherError
  | Propagates FileException => open_read file = OtherOSError
  end.
Proof.
move=> _; rewrite /validation_client.
case vp: (valid_port port) => /=; last exact: Or33.
case E: (gethostbyname host) => //; try exact: Or33.
- case: (_ || _) => /=; last exact: Or33.
  case F: (open_read file) => [text|||] //; try exact: Or33.
  + do 5![case: ifP => _; first exact: Or33].
    by split=> //; exists text.
  + exact: Or31.
- exact: Or32.
Qed.

Lemma client_exit_codes_witness :
  (forall text, (fun _ : str => FileNotFound) (py "missing.txt") = Text text ->
     seven_bit text)
  /\ validation_client sample_hosts (fun _ => FileNotFound) (py "localhost")
       12345 (py "missing.txt") (py "BWT")
     = Exit 2
  /\ [\/ 2 = 2 /\ (fun _ : str => FileNotFound) (py "missing.txt")
                  = FileNotFound,
         2 = 4 /\ sample_hosts (py "localhost") = GaiError
       | 2 = 3].
Proof.
have H : forall text,
    (fun _ : str => FileNotFound) (py "missing.txt") = Text text ->
    seven_bit text by [].
split; first exact: H.
split; first by [].
exact: (@client_exit_codes sample_hosts (fun _ => FileNotFound)
          (py "localhost") 12345 (py "missing.txt") (py "BWT") H).
Defined.
